(** * The stroke/tile engine of the drawing canvas (src/components/Canvas.tsx)

    A shallow embedding of the classes [Stroke] and [Tile] and of the erase
    handler of the [Canvas] component, followed by the properties of the
    specification that concern them.

    Numbers.  A JavaScript number is modelled as an exact rational ([Q]) or
    [NaN]; reading past the end of an array gives [Undef].  Rounding, the
    infinities and signed zeros of binary64 are outside the model: every
    statement below is about exact arithmetic. *)

From Stdlib Require Import QArith Qabs Lqa ZArith Lia.
From stdpp Require Import base list.

Local Open Scope Q_scope.

(** ** Values and completions *)

Inductive jsval : Type :=
  | Num (q : Q)
  | NaN
  | Undef.

(** Equality of values up to the representation of a rational. *)
Definition jeq (a b : jsval) : Prop :=
  match a, b with
  | Num p, Num q => p == q
  | NaN, NaN => True
  | Undef, Undef => True
  | _, _ => False
  end.

Definition peq (a b : jsval * jsval) : Prop := jeq a.1 b.1 ∧ jeq a.2 b.2.

(** ToNumber: [undefined] becomes [NaN]. *)
Definition to_number (v : jsval) : jsval :=
  match v with
  | Undef => NaN
  | _ => v
  end.

Definition arith2 (f : Q → Q → Q) (a b : jsval) : jsval :=
  match to_number a, to_number b with
  | Num p, Num q => Num (f p q)
  | _, _ => NaN
  end.

Definition jadd : jsval → jsval → jsval := arith2 Qplus.
Definition jsub : jsval → jsval → jsval := arith2 Qminus.
Definition jmul : jsval → jsval → jsval := arith2 Qmult.

(** Math.abs *)
Definition jabs (a : jsval) : jsval :=
  match to_number a with
  | Num p => Num (Qabs p)
  | _ => NaN
  end.

Definition Qlt_bool (p q : Q) : bool := negb (Qle_bool q p).

(** Comparisons: any comparison with [NaN] is false. *)
Definition cmp2 (f : Q → Q → bool) (a b : jsval) : bool :=
  match to_number a, to_number b with
  | Num p, Num q => f p q
  | _, _ => false
  end.

Definition jle : jsval → jsval → bool := cmp2 Qle_bool.
Definition jlt : jsval → jsval → bool := cmp2 Qlt_bool.
Definition jge (a b : jsval) : bool := jle b a.
Definition jgt (a b : jsval) : bool := jlt b a.

(** [a[i]]: a read outside the array gives [undefined]. *)
Definition aget (a : list jsval) (i : Z) : jsval :=
  if (i <? 0)%Z then Undef else default Undef (a !! Z.to_nat i).

(** [a[i] = v]: inside the array the element is replaced; past the end the
    array grows and the gap reads as [undefined]; a negative index names a
    property, not an element. *)
Definition aset (a : list jsval) (i : Z) (v : jsval) : list jsval :=
  if (i <? 0)%Z then a
  else if (i <? Z.of_nat (length a))%Z then <[Z.to_nat i := v]> a
  else a ++ replicate (Z.to_nat i - length a) Undef ++ [v].

Inductive js_error : Type :=
  | TypeError
  | RangeError.

(** The outcome of a call: a value, or an exception. *)
Inductive completion (A : Type) : Type :=
  | Normal (a : A)
  | Throw (e : js_error).
Arguments Normal {A} a.
Arguments Throw {A} e.

(** ** class Stroke *)

Module Stroke.

Record t : Type := mk {
  path : list jsval;
  startX : jsval;
  startY : jsval;
  id : nat
}.

Definition set_path (s : t) (p : list jsval) : t :=
  mk p (startX s) (startY s) (id s).

Definition setStart (s : t) (x y : jsval) : t :=
  mk (path s) x y (id s).

(** [new Stroke(path)]: takes the next id from the static counter
    [masterId], returned incremented. *)
Definition new (p : list jsval) (masterId : nat) : t * nat :=
  let s := mk p Undef Undef masterId in
  (if Nat.eqb (length p) 0 then s else setStart s (aget p 0) (aget p 1),
   S masterId).

Definition addToPath (s : t) (offsetX offsetY : jsval) : t :=
  let s1 := if Nat.eqb (length (path s)) 0 then setStart s offsetX offsetY else s in
  set_path s1 (path s1 ++ [offsetX; offsetY]).

Definition isEmpty (s : t) : bool := Nat.eqb (length (path s)) 0.

Definition getPathVertex (s : t) (index : Z) : completion (jsval * jsval) :=
  Normal (aget (path s) (index * 2), aget (path s) (index * 2 + 1)).

Definition getPath (s : t) : list jsval := path s.
Definition getID (s : t) : nat := id s.

(** [path.length / 2], a half-integer when the array has odd length. *)
Definition getLength (s : t) : Q := inject_Z (Z.of_nat (length (path s))) / 2.

Definition getStartX (s : t) : jsval := startX s.
Definition getStartY (s : t) : jsval := startY s.

(** The middle of the quadratic curve through three points. *)
Definition bezier (x0 y0 x1 y1 x2 y2 : jsval) : jsval * jsval :=
  (jadd (jadd (jmul (Num (0.5 ^ 2)) x0) (jmul (jmul (Num 2) (Num (0.5 ^ 2))) x1))
        (jmul (Num (0.5 ^ 2)) x2),
   jadd (jadd (jmul (Num (0.5 ^ 2)) y0) (jmul (jmul (Num 2) (Num (0.5 ^ 2))) y1))
        (jmul (Num (0.5 ^ 2)) y2)).

(** One turn of the loop of [smoothPath], at counter [i]. *)
Definition smooth_body (i : Z) (s : t) : t :=
  let '(x, y) := bezier (aget (path s) (i*2-4)) (aget (path s) (i*2-3))
                        (aget (path s) (i*2-2)) (aget (path s) (i*2-1))
                        (aget (path s) (i*2)) (aget (path s) (i*2+1)) in
  let s1 := set_path s (aset (path s) (i*2-2) x) in
  set_path s1 (aset (path s1) (i*2-1) y).

(** [for (...; i < this.getLength(); i++)], the condition evaluated anew
    at every turn. *)
Fixpoint smooth_loop (fuel : nat) (i : Z) (s : t) : t :=
  match fuel with
  | O => s
  | S fuel' =>
      if Qlt_bool (inject_Z i) (getLength s)
      then smooth_loop fuel' (i + 1) (smooth_body i s)
      else s
  end.

Definition smoothPath (s : t) : t := smooth_loop (length (path s)) 2 s.

(** The iterator: [next()] at position [index] gives the vertex and the
    advanced position, or [None] when done. *)
Definition next (s : t) (index : Z) : completion (option ((jsval * jsval) * Z)) :=
  if Qlt_bool (inject_Z index) (getLength s)
  then match getPathVertex s index with
       | Normal v => Normal (Some (v, (index + 1)%Z))
       | Throw e => Throw e
       end
  else Normal None.

End Stroke.

(** ** class Tile *)

Module Tile.

(** [private static size = 2000] *)
Definition size : Q := 2000.

Record t : Type := mk {
  startX : jsval;
  startY : jsval;
  endX : jsval;
  endY : jsval;
  strokes : list Stroke.t;
  strokeIDs : list nat
}.

Definition new (x y : jsval) : t :=
  mk x y (jadd x (Num size)) (jadd y (Num size)) [] [].

Definition addStroke (tl : t) (stroke : Stroke.t) : t :=
  mk (startX tl) (startY tl) (endX tl) (endY tl)
     (strokes tl ++ [stroke])
     (strokeIDs tl ++ [Stroke.getID stroke]).

(** [Array.prototype.includes] on the list of ids. *)
Definition includes (ids : list nat) (strokeID : nat) : bool :=
  existsb (Nat.eqb strokeID) ids.

Definition removeStroke (tl : t) (strokeID : nat) : t :=
  if negb (includes (strokeIDs tl) strokeID) then tl
  else mk (startX tl) (startY tl) (endX tl) (endY tl)
          (filter (λ s, Stroke.getID s ≠ strokeID) (strokes tl))
          (filter (λ s, s ≠ strokeID) (strokeIDs tl)).

Definition isEmpty (tl : t) : bool := Nat.eqb (length (strokeIDs tl)) 0.
Definition numElements (tl : t) : nat := length (strokes tl).
Definition getStrokes (tl : t) : list Stroke.t := strokes tl.

(** [this.strokes[index]]: [None] stands for [undefined]. *)
Definition getStroke (tl : t) (index : nat) : option Stroke.t := strokes tl !! index.

Definition enclosesVertex (tl : t) (x y : jsval) : bool :=
  jge (jsub x (startX tl)) (Num 0) && jgt (jsub (endX tl) x) (Num 0)
  && jge (jsub y (startY tl)) (Num 0) && jgt (jsub (endY tl) y) (Num 0).

End Tile.

(** ** The Canvas component: state and handlers *)

Record PointerEvent : Type := mkEvent {
  button : Z;
  offsetX : Q;
  offsetY : Q
}.

Module Canvas.

(** The variables of the component, with the static counter of [Stroke]
    and, for the drawing context, the arguments of the calls of [redraw]
    (the other drawing calls leave no trace in the state). *)
Record state : Type := mk {
  masterId : nat;
  isDrawing : bool;
  isErasing : bool;
  currStroke : Stroke.t;
  onScreenTiles : list Tile.t;
  lastX : Q;
  lastY : Q;
  redrawn : list (list Stroke.t)
}.

(** A handler ends normally or by an exception, in a state. *)
Definition outcome : Type := completion unit * state.

Definition set_isDrawing (b : bool) (c : state) : state :=
  mk (masterId c) b (isErasing c) (currStroke c) (onScreenTiles c)
     (lastX c) (lastY c) (redrawn c).
Definition set_isErasing (b : bool) (c : state) : state :=
  mk (masterId c) (isDrawing c) b (currStroke c) (onScreenTiles c)
     (lastX c) (lastY c) (redrawn c).
Definition set_currStroke (s : Stroke.t) (c : state) : state :=
  mk (masterId c) (isDrawing c) (isErasing c) s (onScreenTiles c)
     (lastX c) (lastY c) (redrawn c).
Definition set_masterId (n : nat) (c : state) : state :=
  mk n (isDrawing c) (isErasing c) (currStroke c) (onScreenTiles c)
     (lastX c) (lastY c) (redrawn c).
Definition set_onScreenTiles (ts : list Tile.t) (c : state) : state :=
  mk (masterId c) (isDrawing c) (isErasing c) (currStroke c) ts
     (lastX c) (lastY c) (redrawn c).
Definition set_last (x y : Q) (c : state) : state :=
  mk (masterId c) (isDrawing c) (isErasing c) (currStroke c) (onScreenTiles c)
     x y (redrawn c).

(** [redraw(strokes, type)]: clears the surface and draws [strokes]. *)
Definition redraw (strokes : list Stroke.t) (c : state) : state :=
  mk (masterId c) (isDrawing c) (isErasing c) (currStroke c) (onScreenTiles c)
     (lastX c) (lastY c) (redrawn c ++ [strokes]).

(** *** Helper functions *)

(** The first tile that encloses the point, with its place in [tiles];
    [None] stands for [null]. *)
Definition getTile (tiles : list Tile.t) (x y : jsval) : option (nat * Tile.t) :=
  list_find (λ tl, Tile.enclosesVertex tl x y = true) tiles.

Definition withinSquare (x1 y1 x2 y2 length : jsval) : bool :=
  jle (jabs (jsub x1 x2)) length && jle (jabs (jsub y1 y2)) length.

(** *** Draw *)

Definition startDraw (ev : PointerEvent) (c : state) : outcome :=
  let c := set_isDrawing true c in
  (Normal (),
   set_currStroke (Stroke.addToPath (currStroke c) (Num (offsetX ev)) (Num (offsetY ev))) c).

Definition draw (ev : PointerEvent) (c : state) : outcome :=
  if negb (isDrawing c) then (Normal (), c)
  else (Normal (),
        set_currStroke (Stroke.addToPath (currStroke c) (Num (offsetX ev)) (Num (offsetY ev))) c).

Definition endDraw (c : state) : outcome :=
  let c := set_isDrawing false c in
  if Stroke.isEmpty (currStroke c) then (Normal (), c)
  else
    let c := set_currStroke (Stroke.smoothPath (currStroke c)) c in
    match onScreenTiles c !! 0%nat with
    | None => (Throw TypeError, c)
    | Some tl =>
        let c := set_onScreenTiles (<[0%nat := Tile.addStroke tl (currStroke c)]> (onScreenTiles c)) c in
        let '(s, m) := Stroke.new [] (masterId c) in
        (Normal (), set_currStroke s (set_masterId m c))
    end.

(** *** Erase *)

(** the "radius" to erase *)
Definition size : jsval := Num 5.

(** [for (const coord of stroke) if (withinSquare(...)) <hit>]: whether
    the body reaches the hit, from position [index] of the iterator. *)
Fixpoint coords_loop (fuel : nat) (x y : jsval) (s : Stroke.t) (index : Z)
  : completion bool :=
  match fuel with
  | O => Normal false
  | S fuel' =>
      match Stroke.next s index with
      | Throw e => Throw e
      | Normal None => Normal false
      | Normal (Some (coord, index')) =>
          if withinSquare x y coord.1 coord.2 size then Normal true
          else coords_loop fuel' x y s index'
      end
  end.

Definition stroke_hit (x y : jsval) (s : Stroke.t) : completion bool :=
  coords_loop (S (length (Stroke.path s))) x y s 0.

(** [loop1]: [n] is [i + 1]; the result is the index of the stroke hit. *)
Fixpoint loop1 (n : nat) (x y : jsval) (tl : Tile.t) : completion (option nat) :=
  match n with
  | O => Normal None
  | S i =>
      match Tile.getStroke tl i with
      | None => Throw TypeError
      | Some s =>
          match stroke_hit x y s with
          | Throw e => Throw e
          | Normal true => Normal (Some i)
          | Normal false => loop1 i x y tl
          end
      end
  end.

Definition erase (ev : PointerEvent) (c : state) : outcome :=
  if negb (isErasing c) then (Normal (), c)
  else
    let x := Num (offsetX ev) in
    let y := Num (offsetY ev) in
    if withinSquare x y (Num (lastX c)) (Num (lastY c)) (Num 5) then (Normal (), c)
    else
      match getTile (onScreenTiles c) x y with
      | None => (Throw TypeError, c)
      | Some (k, currentTile) =>
          if Tile.isEmpty currentTile then (Normal (), c)
          else
            let c := set_last (offsetX ev) (offsetY ev) c in
            let allStrokes := Tile.getStrokes currentTile in
            match loop1 (Tile.numElements currentTile) x y currentTile with
            | Throw e => (Throw e, c)
            | Normal None => (Normal (), c)
            | Normal (Some i) =>
                let allStrokes := delete i allStrokes in
                let c := redraw allStrokes c in
                match Tile.getStroke currentTile i with
                | None => (Throw TypeError, c)
                | Some s =>
                    (Normal (),
                     set_onScreenTiles
                       (<[k := Tile.removeStroke currentTile (Stroke.getID s)]> (onScreenTiles c)) c)
                end
            end
      end.

Definition startErase (ev : PointerEvent) (c : state) : outcome :=
  erase ev (set_isErasing true c).

Definition endErase (c : state) : outcome := (Normal (), set_isErasing false c).

(** *** Pointer events *)

(** Two calls in a row: an exception in the first ends the handler. *)
Definition and_then (h1 h2 : state → outcome) (c : state) : outcome :=
  match h1 c with
  | (Normal _, c1) => h2 c1
  | r => r
  end.

Definition skip (c : state) : outcome := (Normal (), c).

Definition pointerDown (ev : PointerEvent) : state → outcome :=
  if (button ev =? 0)%Z then startDraw ev
  else if (button ev =? 2)%Z then startErase ev
  else skip.

Definition pointerUp (ev : PointerEvent) : state → outcome :=
  and_then (if (button ev =? 0)%Z || (button ev =? -1)%Z then endDraw else skip)
           (if (button ev =? 2)%Z || (button ev =? -1)%Z then endErase else skip).

Definition pointerMove (ev : PointerEvent) : state → outcome :=
  and_then (draw ev) (erase ev).

(** The events wired to the canvas element; leaving the element is handled
    as lifting the button. *)
Inductive event : Type :=
  | PointerDown (ev : PointerEvent)
  | PointerUp (ev : PointerEvent)
  | PointerMove (ev : PointerEvent)
  | PointerLeave (ev : PointerEvent).

Definition handle (e : event) : state → outcome :=
  match e with
  | PointerDown ev => pointerDown ev
  | PointerUp ev => pointerUp ev
  | PointerMove ev => pointerMove ev
  | PointerLeave ev => pointerUp ev
  end.

(** The state after the first render and its effect. *)
Definition init : state :=
  let '(s, m) := Stroke.new [] 0 in
  mk m false false s [Tile.new (Num 0) (Num 0)] 0 0 [].

End Canvas.

(** ** The formula of the specification *)

(** The blend [0.25*P0 + 0.5*P1 + 0.25*P2] of three points, as the
    specification writes it; compared below with [Stroke.bezier]. *)
Definition spec_blend (p0 p1 p2 : jsval * jsval) : jsval * jsval :=
  (jadd (jadd (jmul (Num 0.25) p0.1) (jmul (Num 0.5) p1.1)) (jmul (Num 0.25) p2.1),
   jadd (jadd (jmul (Num 0.25) p0.2) (jmul (Num 0.5) p1.2)) (jmul (Num 0.25) p2.2)).

(** A stroke as the draw handlers build it: the points of the gesture
    appended one by one. *)
Definition captured (s : Stroke.t) (pts : list (jsval * jsval)) : Stroke.t :=
  foldl (λ s p, Stroke.addToPath s p.1 p.2) s pts.

(** The tiles that a program can build: a new tile, then any number of
    calls of [addStroke] and [removeStroke]. *)
Inductive reachable : Tile.t → Prop :=
  | reach_new (x y : jsval) : reachable (Tile.new x y)
  | reach_add (tl : Tile.t) (s : Stroke.t) :
      reachable tl → reachable (Tile.addStroke tl s)
  | reach_remove (tl : Tile.t) (n : nat) :
      reachable tl → reachable (Tile.removeStroke tl n).

(** The states of the component: the initial one, and the state in which
    each event leaves it (an exception ends the handler, not the
    component). *)
Inductive canvas_reachable : Canvas.state → Prop :=
  | canvas_init : canvas_reachable Canvas.init
  | canvas_step (c : Canvas.state) (e : Canvas.event) :
      canvas_reachable c → canvas_reachable (Canvas.handle e c).2.

(** In a tile of the component the ids are distinct and older than the
    stroke being drawn, [cur]. *)
Definition tile_ok (cur : nat) (tl : Tile.t) : Prop :=
  reachable tl
  ∧ NoDup (Stroke.getID <$> Tile.strokes tl)
  ∧ Forall (λ s, Stroke.getID s < cur)%nat (Tile.strokes tl).

Definition canvas_ok (c : Canvas.state) : Prop :=
  (Stroke.getID (Canvas.currStroke c) < Canvas.masterId c)%nat
  ∧ Forall (tile_ok (Stroke.getID (Canvas.currStroke c))) (Canvas.onScreenTiles c).

(** The two constants of the erase handler, under the names of the
    specification; the source writes both as the literal 5. *)
Definition moveThreshold : Q := 5.
Definition eraseRadius : Q := 5.

(** The pointer at (x, y) is within [moveThreshold] of the last position
    handled, on both axes. *)
Definition suppressed (c : Canvas.state) (ev : PointerEvent) : Prop :=
  Qabs (offsetX ev - Canvas.lastX c) <= moveThreshold
  ∧ Qabs (offsetY ev - Canvas.lastY c) <= moveThreshold.

(** A stroke passes within [eraseRadius] of (x, y): one of its vertices is
    that near on both axes. *)
Definition passes_within (s : Stroke.t) (x y : Q) : Prop :=
  ∃ (j : Z) (px py : Q),
    (0 ≤ j)%Z
    ∧ inject_Z j < Stroke.getLength s
    ∧ Stroke.getPathVertex s j = Normal (Num px, Num py)
    ∧ Qabs (x - px) <= eraseRadius
    ∧ Qabs (y - py) <= eraseRadius.

(** The ways a call of [erase] can go, by the state it starts in: the guards
    passed, the tile and the stroke found, and the outcome. *)
Inductive erase_spec (c : Canvas.state) (ev : PointerEvent) : Canvas.outcome → Prop :=
  | erase_idle :
      Canvas.isErasing c = false →
      erase_spec c ev (Normal (), c)
  | erase_suppressed :
      Canvas.isErasing c = true →
      suppressed c ev →
      erase_spec c ev (Normal (), c)
  | erase_no_tile :
      Canvas.isErasing c = true →
      ¬ suppressed c ev →
      Canvas.getTile (Canvas.onScreenTiles c) (Num (offsetX ev)) (Num (offsetY ev)) = None →
      erase_spec c ev (Throw TypeError, c)
  | erase_empty_tile (k : nat) (tl : Tile.t) :
      Canvas.isErasing c = true →
      ¬ suppressed c ev →
      Canvas.getTile (Canvas.onScreenTiles c) (Num (offsetX ev)) (Num (offsetY ev)) = Some (k, tl) →
      Tile.isEmpty tl = true →
      erase_spec c ev (Normal (), c)
  | erase_miss (k : nat) (tl : Tile.t) :
      Canvas.isErasing c = true →
      ¬ suppressed c ev →
      Canvas.getTile (Canvas.onScreenTiles c) (Num (offsetX ev)) (Num (offsetY ev)) = Some (k, tl) →
      Tile.isEmpty tl = false →
      (∀ s, s ∈ Tile.getStrokes tl → ¬ passes_within s (offsetX ev) (offsetY ev)) →
      erase_spec c ev (Normal (), Canvas.set_last (offsetX ev) (offsetY ev) c)
  | erase_hit (k : nat) (tl : Tile.t) (i : nat) (s : Stroke.t) :
      Canvas.isErasing c = true →
      ¬ suppressed c ev →
      Canvas.getTile (Canvas.onScreenTiles c) (Num (offsetX ev)) (Num (offsetY ev)) = Some (k, tl) →
      Tile.isEmpty tl = false →
      Tile.getStroke tl i = Some s →
      passes_within s (offsetX ev) (offsetY ev) →
      (∀ j s', (i < j)%nat → Tile.getStroke tl j = Some s' →
               ¬ passes_within s' (offsetX ev) (offsetY ev)) →
      erase_spec c ev
        (Normal (),
         Canvas.set_onScreenTiles
           (<[k := Tile.removeStroke tl (Stroke.getID s)]> (Canvas.onScreenTiles c))
           (Canvas.redraw (delete i (Tile.getStrokes tl))
              (Canvas.set_last (offsetX ev) (offsetY ev) c))).

(** ** Sample strokes and states *)

(** Three strokes through the neighbourhood of (50, 50), and one through
    (102, 103) and (110, 100). *)
Definition sample_A : Stroke.t :=
  captured (Stroke.new [] 0).1 [(Num 50, Num 50); (Num 60, Num 60)].
Definition sample_B : Stroke.t :=
  captured (Stroke.new [] 1).1 [(Num 40, Num 60); (Num 52, Num 48)].
Definition sample_C : Stroke.t :=
  captured (Stroke.new [] 2).1 [(Num 48, Num 52)].
Definition sample_D : Stroke.t :=
  captured (Stroke.new [] 0).1 [(Num 102, Num 103); (Num 110, Num 100)].

(** The tile of origin (0, 0) after the strokes of [l] were added in turn. *)
Definition sample_tile (l : list Stroke.t) : Tile.t :=
  foldl Tile.addStroke (Tile.new (Num 0) (Num 0)) l.

(** A canvas in the course of an erase gesture, with that one tile and the
    last position handled at (x, y). *)
Definition sample_canvas (l : list Stroke.t) (x y : Q) : Canvas.state :=
  Canvas.mk 3 false true (Stroke.new [] 3).1 [sample_tile l] x y [].

(** ** The drawing calls of redraw *)

(** The calls that [redraw] makes on the 2D context, in order. *)
Inductive draw_call : Type :=
  | ClearRect (x y w h : jsval)
  | BeginPath
  | MoveTo (x y : jsval)
  | Arc (x y radius : jsval)          (* arc(x, y, radius, 0, Math.PI*2) *)
  | QuadraticCurveTo (cpx cpy x y : jsval)
  | StrokePath                        (* stroke() *)
  | SourceOver.                       (* globalCompositeOperation = 'source-over' *)

Definition strokeWidth : Q := 2.

(** [for (let i = 1; i < stroke.getLength()/2; i++) quadraticCurveTo(...)] *)
Fixpoint curves_loop (fuel : nat) (i : Z) (s : Stroke.t) : list draw_call :=
  match fuel with
  | O => []
  | S fuel' =>
      if Qlt_bool (inject_Z i) (Stroke.getLength s / 2)
      then QuadraticCurveTo (aget (Stroke.path s) (i*4)) (aget (Stroke.path s) (i*4+1))
                            (aget (Stroke.path s) (i*4+2)) (aget (Stroke.path s) (i*4+3))
           :: curves_loop fuel' (i + 1) s
      else []
  end.

(** The local function [addStroke] of [redraw]. *)
Definition redraw_addStroke (s : Stroke.t) : list draw_call :=
  [MoveTo (Stroke.getStartX s) (Stroke.getStartY s);
   Arc (Stroke.getStartX s) (Stroke.getStartY s) (Num (strokeWidth / 10))]
  ++ curves_loop (length (Stroke.path s)) 1 s.

(** The body of [redraw] on a canvas of size [w] x [h], for the list it is
    given (its callers always pass one). *)
Definition redraw_calls (w h : jsval) (strokes : list Stroke.t) : list draw_call :=
  if Nat.eqb (length strokes) 0 then [ClearRect (Num 0) (Num 0) w h]
  else [ClearRect (Num 0) (Num 0) w h; BeginPath]
       ++ concat (map redraw_addStroke strokes)
       ++ [StrokePath; SourceOver].

(** ** Strokes, iteration and runs of events *)

(** The strokes of a drawing session: a new empty stroke, extended by
    [addToPath] and smoothed by [smoothPath]. *)
Inductive built : Stroke.t → Prop :=
  | built_new (m : nat) : built (Stroke.new [] m).1
  | built_add (s : Stroke.t) (x y : jsval) : built s → built (Stroke.addToPath s x y)
  | built_smooth (s : Stroke.t) : built s → built (Stroke.smoothPath s).

(** The values a [for...of] over the stroke receives, from position [index]
    of the iterator on. *)
Fixpoint yields (fuel : nat) (s : Stroke.t) (index : Z) : completion (list (jsval * jsval)) :=
  match fuel with
  | O => Normal []
  | S fuel' =>
      match Stroke.next s index with
      | Throw e => Throw e
      | Normal None => Normal []
      | Normal (Some (v, index')) =>
          match yields fuel' s index' with
          | Normal l => Normal (v :: l)
          | Throw e => Throw e
          end
      end
  end.

Definition iterate (s : Stroke.t) : completion (list (jsval * jsval)) :=
  yields (S (length (Stroke.path s))) s 0.

(** Every vertex of the path is a pair of numbers that satisfy [PX] and
    [PY]. *)
Definition vertices_sat (PX PY : Q → Prop) (p : list jsval) : Prop :=
  ∀ j : Z, (0 ≤ j)%Z → (j * 2 < Z.of_nat (length p))%Z →
    ∃ x y, aget p (j * 2) = Num x ∧ aget p (j * 2 + 1) = Num y ∧ PX x ∧ PY y.

(** The state after a run of events. *)
Definition run (es : list Canvas.event) (c : Canvas.state) : Canvas.state :=
  foldl (λ c e, (Canvas.handle e c).2) c es.

(** The positions of a list of pointer events, as the draw handlers pass
    them to [addToPath]. *)
Definition positions (evs : list PointerEvent) : list (jsval * jsval) :=
  map (λ ev, (Num (offsetX ev), Num (offsetY ev))) evs.

(** Vertex [k] of a stroke, as [getPathVertex] returns it. *)
Definition vertex_of (s : Stroke.t) (k : Z) : jsval * jsval :=
  match Stroke.getPathVertex s k with
  | Normal v => v
  | Throw _ => (Undef, Undef)
  end.

(** The curve that [redraw] draws at turn [k] of its loop, said with
    vertices: control point vertex 2k, end point vertex 2k+1. *)
Definition curve_at (s : Stroke.t) (k : nat) : draw_call :=
  QuadraticCurveTo (vertex_of s (2 * Z.of_nat k)).1 (vertex_of s (2 * Z.of_nat k)).2
                   (vertex_of s (2 * Z.of_nat k + 1)).1 (vertex_of s (2 * Z.of_nat k + 1)).2.

(** A stroke kept in a tile of the component: drawn, not empty, made of
    numbers. *)
Definition stored_ok (s : Stroke.t) : Prop :=
  built s
  ∧ Stroke.path s ≠ []
  ∧ vertices_sat (λ _, True) (λ _, True) (Stroke.path s).

(** What holds of the component in every state: the counter is one ahead of
    the stroke being drawn, which is empty between gestures and made of
    numbers; there is one tile, the square of side [Tile.size] at the
    origin, and it keeps well-formed strokes. *)
Definition canvas_inv (c : Canvas.state) : Prop :=
  Canvas.masterId c = S (Stroke.getID (Canvas.currStroke c))
  ∧ (Canvas.isDrawing c = false → Stroke.path (Canvas.currStroke c) = [])
  ∧ built (Canvas.currStroke c)
  ∧ vertices_sat (λ _, True) (λ _, True) (Stroke.path (Canvas.currStroke c))
  ∧ ∃ tl, Canvas.onScreenTiles c = [tl]
          ∧ Tile.startX tl = Num 0 ∧ Tile.startY tl = Num 0
          ∧ Tile.endX tl = Num (0 + Tile.size) ∧ Tile.endY tl = Num (0 + Tile.size)
          ∧ Forall stored_ok (Tile.strokes tl).

(** A session on the component: two strokes are drawn, then the secondary
    button is pressed away from both. *)
Definition sample_session : list Canvas.event :=
  [Canvas.PointerDown (mkEvent 0 50 50); Canvas.PointerMove (mkEvent 0 60 60);
   Canvas.PointerUp (mkEvent 0 60 60);
   Canvas.PointerDown (mkEvent 0 40 60); Canvas.PointerMove (mkEvent 0 52 48);
   Canvas.PointerUp (mkEvent 0 52 48);
   Canvas.PointerDown (mkEvent 2 300 300)].

(** * Properties *)

(** ** Numbers and arrays *)

Lemma Qlt_bool_iff (p q : Q) : Qlt_bool p q = true ↔ p < q.
Proof.
  unfold Qlt_bool. rewrite negb_true_iff, <- not_true_iff_false, Qle_bool_iff.
  split; [apply Qnot_le_lt | apply Qlt_not_le].
Qed.

Lemma lt_half_iff (i : Z) (n : nat) :
  Qlt_bool (inject_Z i) (inject_Z (Z.of_nat n) / 2) = true ↔ (i * 2 < Z.of_nat n)%Z.
Proof.
  rewrite Qlt_bool_iff. unfold Qlt, Qdiv, Qmult, Qinv, inject_Z. simpl. lia.
Qed.

Lemma lt_getLength (s : Stroke.t) (i : Z) :
  Qlt_bool (inject_Z i) (Stroke.getLength s) = true
  ↔ (i * 2 < Z.of_nat (length (Stroke.path s)))%Z.
Proof. apply lt_half_iff. Qed.

Lemma aget_lookup (a : list jsval) (i : nat) (v : jsval) :
  a !! i = Some v → aget a (Z.of_nat i) = v.
Proof.
  intros H. unfold aget. destruct (Z.ltb_spec (Z.of_nat i) 0); [lia|].
  by rewrite Nat2Z.id, H.
Qed.

Lemma aget_neg (a : list jsval) (i : Z) : (i < 0)%Z → aget a i = Undef.
Proof. intros H. unfold aget. by destruct (Z.ltb_spec i 0); [|lia]. Qed.

Lemma aget_ge (a : list jsval) (i : Z) :
  (Z.of_nat (length a) ≤ i)%Z → aget a i = Undef.
Proof.
  intros H. unfold aget. destruct (Z.ltb_spec i 0); [done|].
  rewrite lookup_ge_None_2; [done | lia].
Qed.

Lemma length_aset (a : list jsval) (i : Z) (v : jsval) :
  (0 ≤ i < Z.of_nat (length a))%Z → length (aset a i v) = length a.
Proof.
  intros H. unfold aset.
  destruct (Z.ltb_spec i 0); [lia|].
  destruct (Z.ltb_spec i (Z.of_nat (length a))); [|lia].
  apply length_insert.
Qed.

Lemma aget_aset (a : list jsval) (i j : Z) (v : jsval) :
  (0 ≤ i < Z.of_nat (length a))%Z →
  aget (aset a i v) j = if decide (j = i) then v else aget a j.
Proof.
  intros H. unfold aset, aget.
  destruct (Z.ltb_spec i 0); [lia|].
  destruct (Z.ltb_spec i (Z.of_nat (length a))); [|lia].
  case_decide as Hij.
  - subst j. destruct (Z.ltb_spec i 0); [lia|].
    rewrite list_lookup_insert_eq; [done | lia].
  - destruct (Z.ltb_spec j 0); [done|].
    rewrite list_lookup_insert_ne; [done | lia].
Qed.

(** ** smoothPath *)

(** The loop counter stays inside the array at every turn that runs. *)
Lemma smooth_body_length (i : Z) (s : Stroke.t) :
  (2 ≤ i)%Z → (i * 2 < Z.of_nat (length (Stroke.path s)))%Z →
  length (Stroke.path (Stroke.smooth_body i s)) = length (Stroke.path s).
Proof.
  intros Hi Hlt. unfold Stroke.smooth_body.
  destruct (Stroke.bezier _ _ _ _ _ _) as [x y]. simpl.
  rewrite !length_aset; rewrite ?length_aset; lia.
Qed.

Lemma smooth_body_aget (i k : Z) (s : Stroke.t) :
  (2 ≤ i)%Z → (i * 2 < Z.of_nat (length (Stroke.path s)))%Z →
  aget (Stroke.path (Stroke.smooth_body i s)) k =
    let p := Stroke.path s in
    let b := Stroke.bezier (aget p (i*2-4)) (aget p (i*2-3)) (aget p (i*2-2))
                           (aget p (i*2-1)) (aget p (i*2)) (aget p (i*2+1)) in
    if decide (k = i*2-2)%Z then b.1
    else if decide (k = i*2-1)%Z then b.2
    else aget p k.
Proof.
  intros Hi Hlt. unfold Stroke.smooth_body. cbv zeta.
  destruct (Stroke.bezier _ _ _ _ _ _) as [x y]. simpl.
  rewrite !aget_aset; rewrite ?length_aset; try lia.
  repeat case_decide; try done; lia.
Qed.

Lemma smooth_body_other (i : Z) (s : Stroke.t) :
  Stroke.id (Stroke.smooth_body i s) = Stroke.id s
  ∧ Stroke.startX (Stroke.smooth_body i s) = Stroke.startX s
  ∧ Stroke.startY (Stroke.smooth_body i s) = Stroke.startY s.
Proof. unfold Stroke.smooth_body. by destruct (Stroke.bezier _ _ _ _ _ _). Qed.

(** What the loop started at counter [i] leaves behind, when the fuel covers
    the turns that remain: the length, the entries below the first point
    written and from the last point on, and the new value of every point
    written, read off the result (for the point before) and off the input
    (for the point itself and the next). *)
Lemma smooth_loop_spec (fuel : nat) :
  ∀ (i : Z) (s : Stroke.t),
    (2 ≤ i)%Z →
    (Z.of_nat (length (Stroke.path s)) ≤ i * 2 + 2 * Z.of_nat fuel)%Z →
    let r := Stroke.smooth_loop fuel i s in
    let p := Stroke.path s in
    let q := Stroke.path r in
    length q = length p
    ∧ (∀ k, (k < i * 2 - 2)%Z → aget q k = aget p k)
    ∧ (∀ j k, (k = j * 2 ∨ k = j * 2 + 1)%Z →
              (Z.of_nat (length p) ≤ (j + 1) * 2)%Z → aget q k = aget p k)
    ∧ (∀ j, (i ≤ j + 1)%Z → ((j + 1) * 2 < Z.of_nat (length p))%Z →
            (aget q (j * 2), aget q (j * 2 + 1)) =
            Stroke.bezier (aget q (j*2-2)) (aget q (j*2-1))
                          (aget p (j*2)) (aget p (j*2+1))
                          (aget p (j*2+2)) (aget p (j*2+3))).
Proof.
  induction fuel as [|fuel IH]; intros i s Hi Hfuel; cbv zeta.
  - simpl. repeat split; try done. intros j ? ?. lia.
  - simpl. destruct (Qlt_bool _ _) eqn:Hc.
    + apply lt_getLength in Hc.
      pose proof (smooth_body_length i s Hi Hc) as Hlen.
      destruct (IH (i + 1)%Z (Stroke.smooth_body i s)) as (H1 & H2 & H3 & H4);
        [lia | rewrite Hlen; lia |].
      cbv zeta in H1, H2, H3, H4. rewrite Hlen in *.
      split; [done|]. split; [|split].
      * intros k Hk. rewrite H2 by lia.
        rewrite smooth_body_aget by done. cbv zeta.
        repeat case_decide; try lia. done.
      * intros j k Hk Hj. rewrite (H3 j k) by done.
        rewrite smooth_body_aget by done. cbv zeta.
        repeat case_decide; try lia. done.
      * intros j Hij Hj.
        destruct (decide (j + 1 = i)%Z) as [Heq|Hne].
        -- rewrite !H2 by lia.
           rewrite !smooth_body_aget by done. cbv zeta.
           repeat case_decide; try lia.
           replace (j*2-2)%Z with (i*2-4)%Z by lia.
           replace (j*2-1)%Z with (i*2-3)%Z by lia.
           replace (j*2)%Z with (i*2-2)%Z by lia.
           replace (i*2-2+1)%Z with (i*2-1)%Z by lia.
           replace (i*2-2+2)%Z with (i*2)%Z by lia.
           replace (i*2-2+3)%Z with (i*2+1)%Z by lia.
           by destruct (Stroke.bezier _ _ _ _ _ _).
        -- rewrite H4 by lia.
           rewrite !(smooth_body_aget i _ s) by done. cbv zeta.
           repeat case_decide; try lia. done.
    + rewrite <- not_true_iff_false, lt_getLength in Hc.
      repeat split; try done. intros j ? ?. lia.
Qed.

(** The fuel given by [smoothPath] is never used up: more of it changes
    nothing, the loop ends on its own condition. *)
Lemma smooth_loop_fuel (fuel extra : nat) :
  ∀ (i : Z) (s : Stroke.t),
    (2 ≤ i)%Z →
    (Z.of_nat (length (Stroke.path s)) ≤ i * 2 + 2 * Z.of_nat fuel)%Z →
    Stroke.smooth_loop (fuel + extra) i s = Stroke.smooth_loop fuel i s.
Proof.
  induction fuel as [|fuel IH]; intros i s Hi Hfuel; simpl.
  - destruct extra as [|extra]; [done|]. simpl.
    destruct (Qlt_bool _ _) eqn:Hc; [|done].
    apply lt_getLength in Hc. lia.
  - destruct (Qlt_bool _ _) eqn:Hc; [|done].
    apply lt_getLength in Hc. apply IH; [lia|].
    rewrite smooth_body_length by done. lia.
Qed.

Lemma smoothPath_fuel (s : Stroke.t) (extra : nat) :
  Stroke.smooth_loop (length (Stroke.path s) + extra) 2 s = Stroke.smoothPath s.
Proof. apply smooth_loop_fuel; lia. Qed.

Lemma smooth_loop_other (fuel : nat) :
  ∀ (i : Z) (s : Stroke.t),
    Stroke.id (Stroke.smooth_loop fuel i s) = Stroke.id s
    ∧ Stroke.startX (Stroke.smooth_loop fuel i s) = Stroke.startX s
    ∧ Stroke.startY (Stroke.smooth_loop fuel i s) = Stroke.startY s.
Proof.
  induction fuel as [|fuel IH]; intros i s; simpl; [done|].
  destruct (Qlt_bool _ _); [|done].
  destruct (IH (i + 1)%Z (Stroke.smooth_body i s)) as (-> & -> & ->).
  apply smooth_body_other.
Qed.

Lemma bezier_blend (p0 p1 p2 : jsval * jsval) :
  peq (Stroke.bezier p0.1 p0.2 p1.1 p1.2 p2.1 p2.2) (spec_blend p0 p1 p2).
Proof.
  destruct p0 as [[x0| |] [y0| |]], p1 as [[x1| |] [y1| |]], p2 as [[x2| |] [y2| |]];
    split; simpl; try done; unfold Qpower; simpl; lra.
Qed.

Lemma getPathVertex_eq (s : Stroke.t) (j : Z) :
  Stroke.getPathVertex s j =
  Normal (aget (Stroke.path s) (j * 2), aget (Stroke.path s) (j * 2 + 1)).
Proof. done. Qed.

(** C1. One call of smoothPath on a path of n >= 3 points keeps the number
    of entries, the first point and the last point, and gives every interior
    point i the value 0.25*P'[i-1] + 0.5*P[i] + 0.25*P[i+1], where P'[i-1] is
    the point before as the call leaves it (already smoothed) and P[i],
    P[i+1] are the points of the input.  On [(0,0),(10,0),(10,10),(0,10)]
    this gives (7.5, 2.5) and (6.875, 8.125) between unchanged ends. *)
Theorem smoothPath_interior_points :
  (∀ (s : Stroke.t) (n : nat),
      length (Stroke.path s) = (2 * n)%nat →
      (3 ≤ n)%nat →
      let r := Stroke.smoothPath s in
      length (Stroke.path r) = length (Stroke.path s)
      ∧ Stroke.getPathVertex r 0 = Stroke.getPathVertex s 0
      ∧ Stroke.getPathVertex r (Z.of_nat n - 1) = Stroke.getPathVertex s (Z.of_nat n - 1)
      ∧ ∀ i : Z, (1 ≤ i ≤ Z.of_nat n - 2)%Z →
          ∃ prev cur nxt new,
            Stroke.getPathVertex r (i - 1) = Normal prev
            ∧ Stroke.getPathVertex s i = Normal cur
            ∧ Stroke.getPathVertex s (i + 1) = Normal nxt
            ∧ Stroke.getPathVertex r i = Normal new
            ∧ peq new (spec_blend prev cur nxt))
  ∧ (let s := (Stroke.new [Num 0; Num 0; Num 10; Num 0; Num 10; Num 10; Num 0; Num 10] 0).1 in
     let r := Stroke.smoothPath s in
     ∃ p1 p2,
       Stroke.getPathVertex r 0 = Normal (Num 0, Num 0)
       ∧ Stroke.getPathVertex r 1 = Normal p1 ∧ peq p1 (Num 7.5, Num 2.5)
       ∧ Stroke.getPathVertex r 2 = Normal p2 ∧ peq p2 (Num 6.875, Num 8.125)
       ∧ Stroke.getPathVertex r 3 = Normal (Num 0, Num 10)
       ∧ length (Stroke.path r) = 8%nat).
Proof.
  split.
  - intros s n Hlen Hn r.
    destruct (smooth_loop_spec (length (Stroke.path s)) 2 s) as (H1 & H2 & H3 & H4);
      [lia | lia |].
    cbv zeta in H1, H2, H3, H4. fold (Stroke.smoothPath s) in H1, H2, H3, H4.
    fold r in H1, H2, H3, H4.
    split; [done|]. rewrite !getPathVertex_eq. split; [|split].
    + by rewrite !H2 by lia.
    + rewrite (H3 (Z.of_nat n - 1)%Z ((Z.of_nat n - 1) * 2)%Z) by lia.
      by rewrite (H3 (Z.of_nat n - 1)%Z ((Z.of_nat n - 1) * 2 + 1)%Z) by lia.
    + intros i Hi. eexists _, _, _, _. repeat (split; [reflexivity|]).
      rewrite H4 by lia.
      replace ((i - 1) * 2)%Z with (i * 2 - 2)%Z by lia.
      replace (i * 2 - 2 + 1)%Z with (i * 2 - 1)%Z by lia.
      replace ((i + 1) * 2)%Z with (i * 2 + 2)%Z by lia.
      replace (i * 2 + 2 + 1)%Z with (i * 2 + 3)%Z by lia.
      apply (bezier_blend (_, _) (_, _) (_, _)).
  - cbv zeta. eexists _, _. vm_compute. repeat split; reflexivity.
Qed.

Lemma smoothPath_interior_points_witness :
  let s := (Stroke.new [Num 1; Num 2; Num 3; Num 4; Num 5; Num 6] 7).1 in
  length (Stroke.path s) = (2 * 3)%nat
  ∧ (3 ≤ 3)%nat
  ∧ ∃ new, Stroke.getPathVertex (Stroke.smoothPath s) 1 = Normal new
           ∧ peq new (spec_blend (Num 1, Num 2) (Num 3, Num 4) (Num 5, Num 6)).
Proof.
  cbv zeta. split; [reflexivity|]. split; [lia|].
  destruct (proj1 smoothPath_interior_points
              (Stroke.new [Num 1; Num 2; Num 3; Num 4; Num 5; Num 6] 7).1 3%nat
              eq_refl (le_n 3)) as (_ & _ & _ & H).
  destruct (H 1%Z) as (prev & cur & nxt & new & Hp & Hc & Hn & Hr & Hb); [lia|].
  exists new. split; [exact Hr|].
  injection Hp as <-. injection Hc as <-. injection Hn as <-. exact Hb.
Defined.

(** ** Tile: containment *)

Lemma enclosesVertex_iff (x0 y0 x y : Q) :
  Tile.enclosesVertex (Tile.new (Num x0) (Num y0)) (Num x) (Num y) = true
  ↔ (x0 <= x ∧ x < x0 + Tile.size) ∧ (y0 <= y ∧ y < y0 + Tile.size).
Proof.
  unfold Tile.enclosesVertex, Tile.new, jge, jgt, jle, jlt, jsub, jadd, arith2, cmp2.
  simpl. rewrite !andb_true_iff, !Qle_bool_iff, !Qlt_bool_iff.
  unfold Tile.size. split; intros H; repeat split; lra.
Qed.




(** ** Stroke: the vertex accessor *)

Lemma length_addToPath (s : Stroke.t) (x y : jsval) :
  Stroke.path (Stroke.addToPath s x y) = Stroke.path s ++ [x; y].
Proof. unfold Stroke.addToPath. by destruct (Nat.eqb _ _). Qed.

Lemma captured_path (pts : list (jsval * jsval)) (s : Stroke.t) :
  Stroke.path (captured s pts) = Stroke.path s ++ flat_map (λ p, [p.1; p.2]) pts.
Proof.
  revert s. induction pts as [|p pts IH]; intros s; simpl.
  - by rewrite app_nil_r.
  - rewrite IH, length_addToPath, <- app_assoc. done.
Qed.

Lemma flat_points_length (pts : list (jsval * jsval)) :
  length (flat_map (λ p, [p.1; p.2]) pts) = (2 * length pts)%nat.
Proof. induction pts as [|p pts IH]; simpl; lia. Qed.

Lemma flat_points_lookup (pts : list (jsval * jsval)) (i : nat) (p : jsval * jsval) :
  pts !! i = Some p →
  flat_map (λ p, [p.1; p.2]) pts !! (2 * i)%nat = Some p.1
  ∧ flat_map (λ p, [p.1; p.2]) pts !! (2 * i + 1)%nat = Some p.2.
Proof.
  revert i. induction pts as [|q pts IH]; intros i H; [done|].
  destruct i as [|i]; simpl in *.
  - by injection H as ->.
  - replace (i + S (i + 0))%nat with (S (2 * i)) by lia.
    replace (i + S (i + 0) + 1)%nat with (S (2 * i + 1)) by lia.
    simpl. by apply IH.
Qed.

Lemma getLength_captured (m : nat) (pts : list (jsval * jsval)) :
  Stroke.getLength (captured (Stroke.new [] m).1 pts) == inject_Z (Z.of_nat (length pts)).
Proof.
  unfold Stroke.getLength. rewrite captured_path. simpl.
  rewrite flat_points_length, Nat2Z.inj_mul, inject_Z_mult. simpl. field.
Qed.

(** C8 (amended). The vertex accessor never fails.  For an index i with
    i < 0 or i >= length() it returns the pair (undefined, undefined); for
    0 <= i < length(), on a stroke built by appending points, it returns the
    point appended at position i. *)
Theorem getPathVertex_total :
  (∀ (s : Stroke.t) (i : Z),
      (i < 0)%Z ∨ Stroke.getLength s <= inject_Z i →
      Stroke.getPathVertex s i = Normal (Undef, Undef))
  ∧ (∀ (m : nat) (pts : list (jsval * jsval)) (i : Z),
      let s := captured (Stroke.new [] m).1 pts in
      (0 ≤ i)%Z → inject_Z i < Stroke.getLength s →
      ∃ p, pts !! Z.to_nat i = Some p ∧ Stroke.getPathVertex s i = Normal p).
Proof.
  split.
  - intros s i H. rewrite getPathVertex_eq.
    destruct H as [H|H].
    + by rewrite !aget_neg by lia.
    + assert (¬ (i * 2 < Z.of_nat (length (Stroke.path s)))%Z) as Hge.
      { rewrite <- lt_getLength, Qlt_bool_iff. by apply Qle_not_lt. }
      by rewrite !aget_ge by lia.
  - intros m pts i s Hi Hlt.
    assert (Z.to_nat i < length pts)%nat as Hlen.
    { unfold s in Hlt. rewrite getLength_captured, <- Zlt_Qlt in Hlt. lia. }
    destruct (lookup_lt_is_Some_2 pts _ Hlen) as [p Hp].
    exists p. split; [done|].
    destruct (flat_points_lookup _ _ _ Hp) as [H1 H2].
    rewrite getPathVertex_eq. unfold s. rewrite captured_path. simpl.
    replace (i * 2)%Z with (Z.of_nat (2 * Z.to_nat i)) by lia.
    replace (Z.of_nat (2 * Z.to_nat i) + 1)%Z with (Z.of_nat (2 * Z.to_nat i + 1)) by lia.
    rewrite (aget_lookup _ _ _ H1), (aget_lookup _ _ _ H2). by destruct p.
Qed.

Lemma getPathVertex_total_witness :
  let s := captured (Stroke.new [] 0).1 [(Num 1, Num 2); (Num 3, Num 4)] in
  ((-1 < 0)%Z ∨ Stroke.getLength s <= inject_Z (-1))
  ∧ Stroke.getPathVertex s (-1) = Normal (Undef, Undef).
Proof.
  cbv zeta. split; [left; reflexivity|].
  apply (proj1 getPathVertex_total). left. reflexivity.
Defined.

(** C8, as stated, fails: at index 0 of the empty stroke, which is out of
    range, the accessor returns a pair and raises nothing. *)
Lemma getPathVertex_no_IndexOutOfRange :
  let s := (Stroke.new [] 0).1 in
  Stroke.getLength s <= inject_Z 0
  ∧ Stroke.getPathVertex s 0 = Normal (Undef, Undef)
  ∧ ∀ e, Stroke.getPathVertex s 0 ≠ Throw e.
Proof. cbv zeta. split; [discriminate|]. split; [reflexivity | discriminate]. Qed.

(** ** Tile: the two lists *)

Lemma includes_iff (ids : list nat) (n : nat) : Tile.includes ids n = true ↔ n ∈ ids.
Proof.
  unfold Tile.includes. rewrite existsb_exists. split.
  - intros (x & Hin & Heq). apply Nat.eqb_eq in Heq. subst x. by apply list_elem_of_In.
  - intros Hin. exists n. split; [by apply list_elem_of_In | apply Nat.eqb_refl].
Qed.

Lemma filter_ids (n : nat) (l : list Stroke.t) :
  filter (λ s, s ≠ n) (Stroke.getID <$> l) = Stroke.getID <$> filter (λ s, Stroke.getID s ≠ n) l.
Proof.
  induction l as [|s l IH]; [done|]. rewrite fmap_cons, !filter_cons.
  destruct (decide (Stroke.getID s ≠ n)); by rewrite ?fmap_cons, IH.
Qed.

Lemma filter_absent (n : nat) (l : list Stroke.t) :
  n ∉ (Stroke.getID <$> l) → filter (λ s, Stroke.getID s ≠ n) l = l.
Proof.
  induction l as [|s l IH]; [done|]. rewrite fmap_cons, not_elem_of_cons, filter_cons.
  intros [Hne Hl]. destruct (decide (Stroke.getID s ≠ n)) as [|Hn]; [by rewrite IH|].
  exfalso. apply Hn. intros Heq. by apply Hne.
Qed.

(** What [removeStroke] leaves, whenever the two lists agree. *)
Lemma removeStroke_strokes (tl : Tile.t) (n : nat) :
  Tile.strokeIDs tl = Stroke.getID <$> Tile.strokes tl →
  Tile.strokes (Tile.removeStroke tl n) = filter (λ s, Stroke.getID s ≠ n) (Tile.strokes tl)
  ∧ Tile.strokeIDs (Tile.removeStroke tl n) = Stroke.getID <$> Tile.strokes (Tile.removeStroke tl n).
Proof.
  intros Hinv. unfold Tile.removeStroke.
  destruct (Tile.includes _ _) eqn:Hinc; simpl.
  - by rewrite Hinv, filter_ids.
  - rewrite <- not_true_iff_false, includes_iff, Hinv in Hinc.
    by rewrite filter_absent.
Qed.

Lemma reachable_ids (tl : Tile.t) :
  reachable tl → Tile.strokeIDs tl = Stroke.getID <$> Tile.strokes tl.
Proof.
  induction 1 as [x y | tl s _ IH | tl n _ IH].
  - done.
  - simpl. by rewrite IH, fmap_app.
  - by apply removeStroke_strokes.
Qed.

(** C10. In every tile obtained from a new one by addStroke and removeStroke,
    strokeIDs is the list of the ids of strokes, in the same order; hence
    isEmpty() holds exactly when numElements() is 0, and removeStroke(id)
    keeps, in order, the stored strokes whose id differs from id and drops
    all the others. *)
Theorem tile_lists_agree (tl : Tile.t) :
  reachable tl →
  Tile.strokeIDs tl = map Stroke.getID (Tile.strokes tl)
  ∧ (Tile.isEmpty tl = true ↔ Tile.numElements tl = 0%nat)
  ∧ ∀ n : nat,
      Tile.getStrokes (Tile.removeStroke tl n)
        = filter (λ s, Stroke.getID s ≠ n) (Tile.getStrokes tl)
      ∧ ∀ s, s ∈ Tile.getStrokes (Tile.removeStroke tl n)
             ↔ s ∈ Tile.getStrokes tl ∧ Stroke.getID s ≠ n.
Proof.
  intros Hr. pose proof (reachable_ids tl Hr) as Hinv.
  split; [done|]. split.
  - unfold Tile.isEmpty, Tile.numElements. rewrite Hinv, length_fmap. apply Nat.eqb_eq.
  - intros n. destruct (removeStroke_strokes tl n Hinv) as [Hs _].
    unfold Tile.getStrokes. rewrite Hs. split; [done|].
    intros s. rewrite list_elem_of_filter. tauto.
Qed.

Lemma tile_lists_agree_witness :
  let s := (Stroke.new [Num 1; Num 2] 4).1 in
  let tl := Tile.removeStroke (Tile.addStroke (Tile.addStroke (Tile.new (Num 0) (Num 0)) s) s) 4 in
  reachable tl ∧ Tile.strokeIDs tl = map Stroke.getID (Tile.strokes tl).
Proof.
  cbv zeta.
  assert (reachable
            (Tile.removeStroke
               (Tile.addStroke
                  (Tile.addStroke (Tile.new (Num 0) (Num 0)) (Stroke.new [Num 1; Num 2] 4).1)
                  (Stroke.new [Num 1; Num 2] 4).1) 4)) as Hr
    by (repeat constructor).
  split; [exact Hr|]. exact (proj1 (tile_lists_agree _ Hr)).
Defined.

(** C9 (amended). addStroke appends without looking at the id: after adding s
    twice, the iteration of the tile is the former one followed by s, s, and
    the number of entries carrying the id of s has grown by two. *)
Theorem addStroke_twice (tl : Tile.t) (s : Stroke.t) :
  let tl2 := Tile.addStroke (Tile.addStroke tl s) s in
  Tile.getStrokes tl2 = Tile.getStrokes tl ++ [s; s]
  ∧ Tile.strokeIDs tl2 = Tile.strokeIDs tl ++ [Stroke.getID s; Stroke.getID s]
  ∧ length (filter (λ s', Stroke.getID s' = Stroke.getID s) (Tile.getStrokes tl2))
    = (2 + length (filter (λ s', Stroke.getID s' = Stroke.getID s) (Tile.getStrokes tl)))%nat.
Proof.
  cbv zeta. unfold Tile.getStrokes. simpl. rewrite <- !app_assoc. simpl.
  split; [done|]. split; [done|].
  rewrite filter_app, !filter_cons, filter_nil, length_app.
  destruct (decide _); [simpl; lia | done].
Qed.

(** C9, as stated, fails: a stroke added twice to a new tile is met twice by
    the iteration. *)
Lemma addStroke_duplicates :
  let s := (Stroke.new [Num 1; Num 2] 0).1 in
  Tile.getStrokes (Tile.addStroke (Tile.addStroke (Tile.new (Num 0) (Num 0)) s) s) = [s; s]
  ∧ ¬ NoDup (Tile.getStrokes (Tile.addStroke (Tile.addStroke (Tile.new (Num 0) (Num 0)) s) s)).
Proof.
  cbv zeta. split; [reflexivity|].
  intros H. apply NoDup_cons_1_1 in H. apply H. left.
Qed.

(** ** Erase: the scan *)

Lemma withinSquare_iff (x y : Q) (v : jsval * jsval) (r : Q) :
  Canvas.withinSquare (Num x) (Num y) v.1 v.2 (Num r) = true
  ↔ ∃ px py, v = (Num px, Num py) ∧ Qabs (x - px) <= r ∧ Qabs (y - py) <= r.
Proof.
  unfold Canvas.withinSquare, jle, jabs, jsub, arith2, cmp2.
  destruct v as [[px| |] [py| |]]; simpl;
    try (split; [try done; rewrite ?andb_false_r; done | by intros (? & ? & ? & _)]).
  rewrite andb_true_iff, !Qle_bool_iff. split.
  - intros [? ?]. by exists px, py.
  - intros (? & ? & [= <- <-] & ? & ?). done.
Qed.

Lemma withinSquare_suppressed (c : Canvas.state) (ev : PointerEvent) :
  Canvas.withinSquare (Num (offsetX ev)) (Num (offsetY ev))
                      (Num (Canvas.lastX c)) (Num (Canvas.lastY c)) (Num 5) = true
  ↔ suppressed c ev.
Proof.
  rewrite (withinSquare_iff _ _ (Num (Canvas.lastX c), Num (Canvas.lastY c)) 5).
  unfold suppressed, moveThreshold. split.
  - by intros (? & ? & [= <- <-] & ? & ?).
  - intros [? ?]. by eexists _, _.
Qed.

(** The iterator loop, from position [index]: with fuel for the turns that
    remain it ends normally, and finds a hit exactly when a vertex from
    [index] on is near. *)
Lemma coords_loop_spec (x y : Q) (s : Stroke.t) (fuel : nat) :
  ∀ index : Z,
    (Z.of_nat (length (Stroke.path s)) ≤ index * 2 + 2 * Z.of_nat fuel)%Z →
    ∃ b, Canvas.coords_loop fuel (Num x) (Num y) s index = Normal b
         ∧ (b = true ↔
            ∃ (j : Z) (px py : Q),
              (index ≤ j)%Z
              ∧ inject_Z j < Stroke.getLength s
              ∧ Stroke.getPathVertex s j = Normal (Num px, Num py)
              ∧ Qabs (x - px) <= eraseRadius ∧ Qabs (y - py) <= eraseRadius).
Proof.
  induction fuel as [|fuel IH]; intros index Hfuel; simpl.
  - exists false. split; [done|]. split; [done|].
    intros (j & px & py & Hj & Hlt & _). exfalso.
    apply Qlt_bool_iff, lt_getLength in Hlt. lia.
  - unfold Stroke.next. destruct (Qlt_bool _ _) eqn:Hc.
    + rewrite getPathVertex_eq. cbn [fst snd].
      destruct (Canvas.withinSquare _ _ _ _ _) eqn:Hw.
      * exists true. split; [done|]. split; [|done]. intros _.
        apply (withinSquare_iff x y (_, _) 5) in Hw as (px & py & Hv & ? & ?).
        exists index, px, py. rewrite getPathVertex_eq, Hv.
        repeat split; try done; try lia; try by apply Qlt_bool_iff.
      * apply lt_getLength in Hc.
        destruct (IH (index + 1)%Z) as (b & Hb & Hiff); [lia|].
        exists b. split; [done|]. rewrite Hiff. split.
        -- intros (j & px & py & ? & ?). exists j, px, py. split; [lia | done].
        -- intros (j & px & py & Hj & Hlt & Hv & Hx & Hy).
           destruct (decide (j = index)) as [->|Hne].
           ++ exfalso. rewrite getPathVertex_eq in Hv.
              rewrite <- not_true_iff_false in Hw. apply Hw.
              injection Hv as Hv1 Hv2. rewrite Hv1, Hv2.
              apply (withinSquare_iff x y (Num px, Num py) 5). by exists px, py.
           ++ exists j, px, py. repeat split; try done. lia.
    + exists false. split; [done|]. split; [done|].
      intros (j & px & py & Hj & Hlt & _). exfalso.
      rewrite <- not_true_iff_false, lt_getLength in Hc.
      apply Qlt_bool_iff, lt_getLength in Hlt. lia.
  Qed.

(** More fuel changes nothing: the iterator ends the loop. *)
Lemma coords_loop_fuel (x y : jsval) (s : Stroke.t) (fuel extra : nat) :
  ∀ index : Z,
    (Z.of_nat (length (Stroke.path s)) ≤ index * 2 + 2 * Z.of_nat fuel)%Z →
    Canvas.coords_loop (fuel + extra) x y s index = Canvas.coords_loop fuel x y s index.
Proof.
  induction fuel as [|fuel IH]; intros index Hfuel; simpl.
  - destruct extra as [|extra]; [done|]. simpl. unfold Stroke.next.
    destruct (Qlt_bool _ _) eqn:Hc; [|done].
    apply lt_getLength in Hc. lia.
  - unfold Stroke.next. destruct (Qlt_bool _ _) eqn:Hc; [|done].
    rewrite getPathVertex_eq. destruct (Canvas.withinSquare _ _ _ _ _); [done|].
    apply lt_getLength in Hc. apply IH. lia.
Qed.

(** A concrete stroke passes near a concrete point: vertex [j], at
    ([px], [py]), is the evidence, checked by evaluation. *)
Ltac passes_at j px py :=
  exists j, px, py; repeat split; try reflexivity; vm_compute; discriminate.

Lemma stroke_hit_spec (x y : Q) (s : Stroke.t) :
  ∃ b, Canvas.stroke_hit (Num x) (Num y) s = Normal b ∧ (b = true ↔ passes_within s x y).
Proof.
  destruct (coords_loop_spec x y s (S (length (Stroke.path s))) 0) as (b & Hb & Hiff);
    [lia|].
  exists b. split; [done|]. by rewrite Hiff.
Qed.

Lemma stroke_hit_true (x y : Q) (s : Stroke.t) :
  passes_within s x y → Canvas.stroke_hit (Num x) (Num y) s = Normal true.
Proof.
  intros H. destruct (stroke_hit_spec x y s) as (b & -> & Hiff).
  f_equal. by apply Hiff.
Qed.

Lemma stroke_hit_false (x y : Q) (s : Stroke.t) :
  ¬ passes_within s x y → Canvas.stroke_hit (Num x) (Num y) s = Normal false.
Proof.
  intros H. destruct (stroke_hit_spec x y s) as ([] & -> & Hiff); [|done].
  exfalso. by apply H, Hiff.
Qed.

(** [loop1] started at [n] strokes: it ends normally, on the last stroke
    below [n] that passes near the pointer, if there is one. *)
Lemma loop1_spec (x y : Q) (tl : Tile.t) (n : nat) :
  (n ≤ Tile.numElements tl)%nat →
  (Canvas.loop1 n (Num x) (Num y) tl = Normal None
   ∧ ∀ i s, (i < n)%nat → Tile.getStroke tl i = Some s → ¬ passes_within s x y)
  ∨ (∃ i s, Canvas.loop1 n (Num x) (Num y) tl = Normal (Some i)
            ∧ (i < n)%nat
            ∧ Tile.getStroke tl i = Some s
            ∧ passes_within s x y
            ∧ ∀ k s', (i < k < n)%nat → Tile.getStroke tl k = Some s' →
                      ¬ passes_within s' x y).
Proof.
  unfold Tile.numElements, Tile.getStroke.
  induction n as [|n IH]; intros Hn; simpl.
  - left. split; [done|]. intros; lia.
  - destruct (lookup_lt_is_Some_2 (Tile.strokes tl) n) as [s Hs]; [lia|].
    unfold Tile.getStroke. rewrite Hs.
    destruct (stroke_hit_spec x y s) as ([] & -> & Hiff).
    + right. exists n, s. repeat split; try done; [lia | by apply Hiff | intros; lia].
    + destruct IH as [[H1 H2] | (i & s' & H1 & H2 & H3 & H4 & H5)]; [lia| |].
      * left. split; [done|]. intros i s' Hi Hs'.
        destruct (decide (i = n)) as [->|]; [|apply (H2 i); [lia | done]].
        rewrite Hs in Hs'. injection Hs' as <-. intros Hp. by apply Hiff in Hp.
      * right. exists i, s'. repeat split; try done; [lia|].
        intros k s'' Hk Hs''.
        destruct (decide (k = n)) as [->|]; [|apply (H5 k); [lia | done]].
        rewrite Hs in Hs''. injection Hs'' as <-. intros Hp. by apply Hiff in Hp.
Qed.

(** ** Erase: the handler *)

Lemma getTile_Some (ts : list Tile.t) (x y : jsval) (k : nat) (tl : Tile.t) :
  Canvas.getTile ts x y = Some (k, tl) →
  ts !! k = Some tl ∧ Tile.enclosesVertex tl x y = true.
Proof. unfold Canvas.getTile. rewrite list_find_Some. tauto. Qed.

Lemma enclosesVertex_removeStroke (tl : Tile.t) (n : nat) (x y : jsval) :
  Tile.enclosesVertex (Tile.removeStroke tl n) x y = Tile.enclosesVertex tl x y.
Proof. unfold Tile.removeStroke. by destruct (negb _). Qed.

(** Replacing the tile found by one of the same bounds does not change
    which tile is found. *)
Lemma getTile_insert (ts : list Tile.t) (x y : jsval) (k : nat) (tl tl' : Tile.t) :
  Canvas.getTile ts x y = Some (k, tl) →
  Tile.enclosesVertex tl' x y = true →
  Canvas.getTile (<[k := tl']> ts) x y = Some (k, tl').
Proof.
  unfold Canvas.getTile. rewrite !list_find_Some.
  intros (Hk & _ & Hfirst) Henc.
  assert (k < length ts)%nat by (by eapply lookup_lt_Some).
  split; [by apply list_lookup_insert_eq|]. split; [done|].
  intros j tj Hj Hlt. rewrite list_lookup_insert_ne in Hj by lia. by eapply Hfirst.
Qed.

(** Every call of [erase] goes one of the six ways of [erase_spec]. *)
Lemma erase_spec_holds (c : Canvas.state) (ev : PointerEvent) :
  erase_spec c ev (Canvas.erase ev c).
Proof.
  unfold Canvas.erase.
  destruct (Canvas.isErasing c) eqn:He; simpl; [|by constructor].
  destruct (Canvas.withinSquare _ _ _ _ _) eqn:Hw.
  { apply erase_suppressed; [done | by apply withinSquare_suppressed]. }
  assert (¬ suppressed c ev) as Hns.
  { rewrite <- withinSquare_suppressed. by rewrite Hw. }
  destruct (Canvas.getTile _ _ _) as [[k tl]|] eqn:Ht; [|by apply erase_no_tile].
  destruct (Tile.isEmpty tl) eqn:Hem; [by eapply erase_empty_tile|].
  destruct (loop1_spec (offsetX ev) (offsetY ev) tl (Tile.numElements tl) (le_n _))
    as [[-> Hmiss] | (i & s & -> & Hi & Hs & Hp & Hlater)].
  - eapply erase_miss; try done.
    intros s [i Hs]%list_elem_of_lookup. apply (Hmiss i); [|done].
    by eapply lookup_lt_Some.
  - rewrite Hs. eapply erase_hit; try done.
    intros j s' Hj Hs'. apply (Hlater j); [|done].
    split; [done|]. by eapply lookup_lt_Some.
Qed.

(** C6. Outside every tile the lookup gives null and the handler, which
    calls isEmpty() on it, ends by a TypeError, in a state it has not
    touched: on the initial canvas with the secondary button held, an erase
    event at (2500, 100) raises, and so does pressing that button there. *)
Theorem erase_outside_tiles_throws :
  let c := Canvas.set_isErasing true Canvas.init in
  let ev := mkEvent 2 2500 100 in
  Canvas.getTile (Canvas.onScreenTiles c) (Num (offsetX ev)) (Num (offsetY ev)) = None
  ∧ Canvas.erase ev c = (Throw TypeError, c)
  ∧ Canvas.pointerDown ev Canvas.init = (Throw TypeError, c).
Proof. cbv zeta. split; [|split]; reflexivity. Qed.

(** The same for every state: past the two guards, a pointer outside all
    tiles ends the handler by a TypeError. *)
Lemma erase_no_tile_throws (c : Canvas.state) (ev : PointerEvent) :
  Canvas.isErasing c = true →
  ¬ suppressed c ev →
  Canvas.getTile (Canvas.onScreenTiles c) (Num (offsetX ev)) (Num (offsetY ev)) = None →
  Canvas.erase ev c = (Throw TypeError, c).
Proof.
  intros He Hns Ht.
  destruct (erase_spec_holds c ev) as [H | ? H | ? ? H | ? ? ? ? H | ? ? ? ? H | ? ? ? ? ? ? H];
    try congruence; done.
Qed.

(** C5 (amended). When an erase event passes the movement check and the tile
    under the pointer holds a stroke, lastX and lastY become the position of
    the pointer, whether a stroke is hit or not; when that tile is empty the
    handler returns at once and leaves them as they were. *)
Theorem erase_updates_last (c : Canvas.state) (ev : PointerEvent) (k : nat) (tl : Tile.t) :
  Canvas.isErasing c = true →
  ¬ suppressed c ev →
  Canvas.getTile (Canvas.onScreenTiles c) (Num (offsetX ev)) (Num (offsetY ev)) = Some (k, tl) →
  (Tile.isEmpty tl = false →
     Canvas.lastX (Canvas.erase ev c).2 = offsetX ev
     ∧ Canvas.lastY (Canvas.erase ev c).2 = offsetY ev)
  ∧ (Tile.isEmpty tl = true → Canvas.erase ev c = (Normal (), c)).
Proof.
  intros He Hns Ht.
  destruct (erase_spec_holds c ev) as [H | ? H | ? ? H | k' tl' ? ? H Hem
                                       | k' tl' ? ? H Hem ? | k' tl' i s ? ? H Hem ? ? ?];
    try congruence; try done;
    rewrite Ht in H; injection H as <- <-; split; intros Hem'; try congruence; done.
Qed.

Lemma erase_updates_last_witness :
  let s := captured (Stroke.new [] 0).1 [(Num 50, Num 50)] in
  let c := Canvas.mk 1 false true (Stroke.new [] 1).1
                     [Tile.addStroke (Tile.new (Num 0) (Num 0)) s] 0 0 [] in
  let ev := mkEvent 2 100 100 in
  Canvas.isErasing c = true
  ∧ ¬ suppressed c ev
  ∧ Canvas.lastX (Canvas.erase ev c).2 = 100.
Proof.
  cbv zeta. split; [reflexivity|].
  assert (¬ suppressed
            (Canvas.mk 1 false true (Stroke.new [] 1).1
               [Tile.addStroke (Tile.new (Num 0) (Num 0))
                  (captured (Stroke.new [] 0).1 [(Num 50, Num 50)])] 0 0 [])
            (mkEvent 2 100 100)) as Hns.
  { intros [H _]. vm_compute in H. by apply H. }
  split; [exact Hns|].
  eapply (erase_updates_last _ (mkEvent 2 100 100) 0%nat); [reflexivity | exact Hns | reflexivity | reflexivity].
Defined.

(** C5, as stated, fails: over an empty tile an erase event that passes the
    movement check leaves lastX and lastY at (0, 0). *)
Lemma erase_empty_tile_keeps_last :
  let c := Canvas.set_isErasing true Canvas.init in
  let ev := mkEvent 2 100 100 in
  ¬ suppressed c ev
  ∧ Canvas.erase ev c = (Normal (), c)
  ∧ Canvas.lastX (Canvas.erase ev c).2 = 0
  ∧ ¬ Canvas.lastX (Canvas.erase ev c).2 == offsetX ev.
Proof.
  cbv zeta. split; [|split; [reflexivity | split; [reflexivity | discriminate]]].
  intros [H _]. vm_compute in H. by apply H.
Qed.

Lemma reachable_not_empty (tl : Tile.t) (s : Stroke.t) :
  reachable tl → s ∈ Tile.getStrokes tl → Tile.isEmpty tl = false.
Proof.
  intros Hr Hs. unfold Tile.isEmpty. rewrite (reachable_ids tl Hr), length_fmap.
  apply Nat.eqb_neq. intros H%nil_length_inv.
  unfold Tile.getStrokes in Hs. rewrite H in Hs. by apply not_elem_of_nil in Hs.
Qed.

(** Where every id occurs once, dropping the strokes of one id is deleting
    one entry. *)
Lemma filter_unique_delete (l : list Stroke.t) (i : nat) (s : Stroke.t) :
  NoDup (Stroke.getID <$> l) → l !! i = Some s →
  filter (λ s', Stroke.getID s' ≠ Stroke.getID s) l = delete i l.
Proof.
  revert i. induction l as [|a l IH]; intros i Hnd Hi; [done|].
  rewrite fmap_cons in Hnd. apply NoDup_cons in Hnd as [Hnotin Hnd].
  rewrite filter_cons. destruct i as [|i]; simpl in Hi.
  - injection Hi as ->. destruct (decide _) as [Hne|_]; [done|].
    simpl. by apply filter_absent.
  - destruct (decide _) as [_|Heq].
    + simpl. f_equal. by apply IH.
    + exfalso. apply Hnotin. apply dec_stable in Heq. rewrite Heq.
      apply list_elem_of_fmap. exists s. split; [done|]. by eapply list_elem_of_lookup_2.
Qed.

(** Newest first: when the tile under the pointer holds [older ++ s :: newer],
    [s] passes near the pointer and no stroke of [newer] does, a call that
    passes the guards removes the strokes of the id of [s], redraws the
    others and records the position. *)
Lemma erase_hit_result (c : Canvas.state) (ev : PointerEvent) (k : nat) (tl : Tile.t)
    (older newer : list Stroke.t) (s : Stroke.t) :
  Canvas.isErasing c = true →
  ¬ suppressed c ev →
  Canvas.getTile (Canvas.onScreenTiles c) (Num (offsetX ev)) (Num (offsetY ev)) = Some (k, tl) →
  reachable tl →
  Tile.getStrokes tl = older ++ s :: newer →
  passes_within s (offsetX ev) (offsetY ev) →
  (∀ s', s' ∈ newer → ¬ passes_within s' (offsetX ev) (offsetY ev)) →
  Canvas.erase ev c =
    (Normal (),
     Canvas.set_onScreenTiles
       (<[k := Tile.removeStroke tl (Stroke.getID s)]> (Canvas.onScreenTiles c))
       (Canvas.redraw (older ++ newer) (Canvas.set_last (offsetX ev) (offsetY ev) c))).
Proof.
  intros He Hns Ht Hr Hl Hp Hnewer.
  assert (s ∈ Tile.getStrokes tl) as Hin
    by (rewrite Hl; apply elem_of_app; right; left).
  pose proof (reachable_not_empty tl s Hr Hin) as Hne.
  destruct (erase_spec_holds c ev) as [H | ? H | ? ? H | k' tl' ? ? H Hem
                                       | k' tl' ? ? H Hem Hmiss
                                       | k' tl' i s0 ? ? H Hem Hi Hp0 Hlater];
    try congruence; try done;
    rewrite Ht in H; injection H as <- <-; try congruence.
  - exfalso. by apply (Hmiss s).
  - unfold Tile.getStroke in Hi, Hlater. unfold Tile.getStrokes in Hl. rewrite Hl in Hi, Hlater.
    destruct (Nat.lt_trichotomy i (length older)) as [Hlt | [-> | Hgt]].
    + exfalso. apply (Hlater (length older) s); [done | | done].
      by rewrite list_lookup_middle.
    + rewrite list_lookup_middle in Hi by done. injection Hi as <-.
      unfold Tile.getStrokes. by rewrite Hl, delete_middle.
    + exfalso. apply (Hnewer s0); [|done].
      rewrite lookup_app_r in Hi by lia.
      destruct (i - length older)%nat as [|n] eqn:Hn; [lia|]. simpl in Hi.
      by eapply list_elem_of_lookup_2.
Qed.

(** C2. In a tile that holds A, added first, then B, both passing within
    eraseRadius of P, an erase at P that passes the movement check removes B
    and leaves A, which is redrawn; a later erase at P that passes the
    movement check then removes A. *)
Theorem erase_newest_first (c : Canvas.state) (ev : PointerEvent) (k : nat) (tl : Tile.t)
    (A B : Stroke.t) :
  Canvas.isErasing c = true →
  ¬ suppressed c ev →
  Canvas.getTile (Canvas.onScreenTiles c) (Num (offsetX ev)) (Num (offsetY ev)) = Some (k, tl) →
  reachable tl →
  Tile.getStrokes tl = [A; B] →
  Stroke.getID A ≠ Stroke.getID B →
  passes_within A (offsetX ev) (offsetY ev) →
  passes_within B (offsetX ev) (offsetY ev) →
  ∃ c1 tl1,
    Canvas.erase ev c = (Normal (), c1)
    ∧ Canvas.onScreenTiles c1 = <[k := tl1]> (Canvas.onScreenTiles c)
    ∧ Tile.getStrokes tl1 = [A]
    ∧ Canvas.redrawn c1 = Canvas.redrawn c ++ [[A]]
    ∧ ∀ c2, Canvas.isErasing c2 = true →
            ¬ suppressed c2 ev →
            Canvas.onScreenTiles c2 = Canvas.onScreenTiles c1 →
            ∃ c3 tl3,
              Canvas.erase ev c2 = (Normal (), c3)
              ∧ Canvas.onScreenTiles c3 = <[k := tl3]> (Canvas.onScreenTiles c2)
              ∧ Tile.getStrokes tl3 = [].
Proof.
  intros He Hns Ht Hr Hl Hid HA HB.
  pose proof (reachable_ids tl Hr) as Hids.
  destruct (removeStroke_strokes tl (Stroke.getID B) Hids) as [Hs1 _].
  assert (Tile.getStrokes (Tile.removeStroke tl (Stroke.getID B)) = [A]) as Hl1.
  { unfold Tile.getStrokes in *. rewrite Hs1, Hl, !filter_cons, filter_nil.
    destruct (decide (Stroke.getID A ≠ _)); [|done].
    destruct (decide (Stroke.getID B ≠ _)); done. }
  eexists _, (Tile.removeStroke tl (Stroke.getID B)).
  split; [apply (erase_hit_result c ev k tl [A] [] B); try done;
          by intros ? ?%not_elem_of_nil|].
  split; [done|]. split; [done|]. split; [done|].
  intros c2 He2 Hns2 Hts2. simpl in Hts2.
  assert (reachable (Tile.removeStroke tl (Stroke.getID B))) as Hr1 by (by constructor).
  destruct (removeStroke_strokes _ (Stroke.getID A) (reachable_ids _ Hr1)) as [Hs3 _].
  eexists _, (Tile.removeStroke (Tile.removeStroke tl (Stroke.getID B)) (Stroke.getID A)).
  split; [apply (erase_hit_result c2 ev k (Tile.removeStroke tl (Stroke.getID B)) [] [] A);
          try done|].
  - rewrite Hts2. eapply getTile_insert; [done|].
    rewrite enclosesVertex_removeStroke. by eapply getTile_Some.
  - by intros ? ?%not_elem_of_nil.
  - split; [done|]. unfold Tile.getStrokes in *.
    rewrite Hs3, Hl1, filter_cons, filter_nil. by destruct (decide _).
Qed.

(** ** The component: ids stay distinct *)

Lemma tile_ok_mono (cur cur' : nat) (tl : Tile.t) :
  (cur ≤ cur')%nat → tile_ok cur tl → tile_ok cur' tl.
Proof.
  intros Hle (Hr & Hnd & Hlt). repeat split; try done.
  eapply Forall_impl; [exact Hlt|]. simpl. intros; lia.
Qed.

Lemma tile_ok_removeStroke (cur n : nat) (tl : Tile.t) :
  tile_ok cur tl → tile_ok cur (Tile.removeStroke tl n).
Proof.
  intros (Hr & Hnd & Hlt).
  destruct (removeStroke_strokes tl n (reachable_ids tl Hr)) as [Hs _].
  split; [by constructor|]. rewrite Hs. split.
  - rewrite <- filter_ids. by apply NoDup_filter.
  - apply Forall_forall. intros s [_ Hin]%list_elem_of_filter.
    by eapply Forall_forall in Hlt.
Qed.

Lemma tile_ok_addStroke (tl : Tile.t) (s : Stroke.t) :
  tile_ok (Stroke.getID s) tl → tile_ok (S (Stroke.getID s)) (Tile.addStroke tl s).
Proof.
  intros (Hr & Hnd & Hlt). split; [by constructor|]. simpl. split.
  - rewrite fmap_app. apply NoDup_app. split; [done|]. split; [|apply NoDup_singleton].
    intros n [s' [-> Hin]]%list_elem_of_fmap Hn%list_elem_of_singleton.
    eapply Forall_forall in Hlt; [|exact Hin]. simpl in Hlt. lia.
  - apply Forall_app. split.
    + eapply Forall_impl; [exact Hlt|]. simpl. intros; lia.
    + apply Forall_singleton. lia.
Qed.

(** The invariant looks at the counter, the stroke being drawn and the tiles
    only. *)
Lemma canvas_ok_ext (c c' : Canvas.state) :
  Canvas.masterId c' = Canvas.masterId c →
  Stroke.getID (Canvas.currStroke c') = Stroke.getID (Canvas.currStroke c) →
  Canvas.onScreenTiles c' = Canvas.onScreenTiles c →
  canvas_ok c → canvas_ok c'.
Proof. unfold canvas_ok. by intros -> -> ->. Qed.

Lemma getID_addToPath (s : Stroke.t) (x y : jsval) :
  Stroke.getID (Stroke.addToPath s x y) = Stroke.getID s.
Proof. unfold Stroke.addToPath. by destruct (Nat.eqb _ _). Qed.

Lemma getID_smoothPath (s : Stroke.t) :
  Stroke.getID (Stroke.smoothPath s) = Stroke.getID s.
Proof. apply smooth_loop_other. Qed.

Lemma canvas_ok_startDraw (ev : PointerEvent) (c : Canvas.state) :
  canvas_ok c → canvas_ok (Canvas.startDraw ev c).2.
Proof. apply canvas_ok_ext; try done. apply getID_addToPath. Qed.

Lemma canvas_ok_draw (ev : PointerEvent) (c : Canvas.state) :
  canvas_ok c → canvas_ok (Canvas.draw ev c).2.
Proof.
  unfold Canvas.draw. destruct (negb _); [done|].
  apply canvas_ok_ext; try done. apply getID_addToPath.
Qed.

Lemma canvas_ok_endDraw (c : Canvas.state) :
  canvas_ok c → canvas_ok (Canvas.endDraw c).2.
Proof.
  intros [Hcur Hts]. unfold Canvas.endDraw. simpl.
  destruct (Stroke.isEmpty _); [done|].
  destruct (Canvas.onScreenTiles c !! 0%nat) as [tl|] eqn:H0; simpl.
  - split; [simpl; lia|]. simpl.
    apply Forall_insert.
    + eapply Forall_impl; [exact Hts|]. intros tl'. apply tile_ok_mono. lia.
    + eapply tile_ok_mono;
        [|apply tile_ok_addStroke; rewrite getID_smoothPath;
          by eapply Forall_lookup_1 in Hts].
      rewrite getID_smoothPath. lia.
  - split; simpl; by rewrite getID_smoothPath.
Qed.

Lemma canvas_ok_erase (ev : PointerEvent) (c : Canvas.state) :
  canvas_ok c → canvas_ok (Canvas.erase ev c).2.
Proof.
  intros Hok.
  destruct (erase_spec_holds c ev) as [ | | | | | k tl i s ? ? Ht ? Hi Hp ?]; try done.
  destruct Hok as [Hcur Hts]. split; [done|]. simpl.
  apply Forall_insert; [done|]. apply tile_ok_removeStroke.
  apply getTile_Some in Ht as [Hk _]. by eapply Forall_lookup_1 in Hts.
Qed.

Lemma canvas_ok_and_then (h1 h2 : Canvas.state → Canvas.outcome) (c : Canvas.state) :
  (∀ c, canvas_ok c → canvas_ok (h1 c).2) →
  (∀ c, canvas_ok c → canvas_ok (h2 c).2) →
  canvas_ok c → canvas_ok (Canvas.and_then h1 h2 c).2.
Proof.
  intros H1 H2 Hok. unfold Canvas.and_then.
  specialize (H1 c Hok). destruct (h1 c) as [[[]|e] c1]; simpl in *; auto.
Qed.

Lemma canvas_ok_handle (e : Canvas.event) (c : Canvas.state) :
  canvas_ok c → canvas_ok (Canvas.handle e c).2.
Proof.
  assert (∀ ev c, canvas_ok c → canvas_ok (Canvas.pointerUp ev c).2) as Hup.
  { intros ev c'. unfold Canvas.pointerUp. apply canvas_ok_and_then.
    - intros c1. destruct (_ || _); [apply canvas_ok_endDraw | done].
    - intros c1. destruct (_ || _); [by apply canvas_ok_ext | done]. }
  destruct e as [ev|ev|ev|ev]; simpl; try apply Hup.
  - unfold Canvas.pointerDown.
    destruct (button ev =? 0)%Z; [apply canvas_ok_startDraw|].
    destruct (button ev =? 2)%Z; [|done].
    intros Hok. unfold Canvas.startErase. apply canvas_ok_erase.
    revert Hok. by apply canvas_ok_ext.
  - unfold Canvas.pointerMove. apply canvas_ok_and_then.
    + apply canvas_ok_draw.
    + apply canvas_ok_erase.
Qed.

(** In every state of the component, each tile was built by addStroke and
    removeStroke and holds every id once: removing by id removes one
    entry. *)
Lemma canvas_reachable_ok (c : Canvas.state) : canvas_reachable c → canvas_ok c.
Proof.
  induction 1 as [|c e _ IH].
  - split; [simpl; lia|]. apply Forall_singleton.
    split; [constructor|]. split; [apply NoDup_nil_2 | apply Forall_nil_2].
  - by apply canvas_ok_handle.
Qed.

Lemma canvas_reachable_tiles (c : Canvas.state) (k : nat) (tl : Tile.t) :
  canvas_reachable c →
  Canvas.onScreenTiles c !! k = Some tl →
  reachable tl ∧ NoDup (Stroke.getID <$> Tile.getStrokes tl).
Proof.
  intros [_ Hts]%canvas_reachable_ok Hk.
  eapply Forall_lookup_1 in Hts as (? & ? & _); [|exact Hk]. done.
Qed.

Lemma sample_tile_reachable (l : list Stroke.t) : reachable (sample_tile l).
Proof.
  unfold sample_tile. generalize (reach_new (Num 0) (Num 0)).
  generalize (Tile.new (Num 0) (Num 0)).
  induction l as [|s l IH]; intros tl Hr; simpl; [done|].
  apply IH. by constructor.
Qed.

Lemma erase_newest_first_witness :
  let c := sample_canvas [sample_A; sample_B] 0 0 in
  let ev := mkEvent 2 50 50 in
  passes_within sample_A 50 50
  ∧ passes_within sample_B 50 50
  ∧ ∃ c1 tl1,
      Canvas.erase ev c = (Normal (), c1)
      ∧ Canvas.onScreenTiles c1 = [tl1]
      ∧ Tile.getStrokes tl1 = [sample_A].
Proof.
  cbv zeta.
  assert (passes_within sample_A 50 50) as HA.
  { passes_at 0%Z 50 50. }
  assert (passes_within sample_B 50 50) as HB.
  { passes_at 1%Z 52 48. }
  split; [exact HA|]. split; [exact HB|].
  destruct (erase_newest_first (sample_canvas [sample_A; sample_B] 0 0) (mkEvent 2 50 50)
              0%nat (sample_tile [sample_A; sample_B]) sample_A sample_B)
    as (c1 & tl1 & H1 & H2 & H3 & _).
  - reflexivity.
  - intros [H _]. vm_compute in H. apply H. reflexivity.
  - reflexivity.
  - apply sample_tile_reachable.
  - reflexivity.
  - simpl. discriminate.
  - exact HA.
  - exact HB.
  - exists c1, tl1. split; [exact H1|]. split; [exact H2 | exact H3].
Defined.

(** C3. One call of the erase handler removes at most one stroke: the tiles
    are left as they were, or in the tile under the pointer the entries
    carrying the id of one stroke, which passes within eraseRadius of the
    pointer, are removed and every entry of another id stays; where every id
    occurs once in a tile, as in all tiles of the component, the tile loses
    at most one entry.  With three strokes through P, one erase at P leaves
    exactly two. *)
Theorem erase_removes_at_most_one :
  (∀ (c : Canvas.state) (ev : PointerEvent),
      let c' := (Canvas.erase ev c).2 in
      Canvas.onScreenTiles c' = Canvas.onScreenTiles c
      ∨ ∃ k tl s,
          Canvas.onScreenTiles c !! k = Some tl
          ∧ s ∈ Tile.getStrokes tl
          ∧ passes_within s (offsetX ev) (offsetY ev)
          ∧ Canvas.onScreenTiles c'
            = <[k := Tile.removeStroke tl (Stroke.getID s)]> (Canvas.onScreenTiles c)
          ∧ ∀ s', s' ∈ Tile.getStrokes tl → Stroke.getID s' ≠ Stroke.getID s →
                  s' ∈ Tile.getStrokes (Tile.removeStroke tl (Stroke.getID s)))
  ∧ (∀ (c : Canvas.state) (ev : PointerEvent) (k : nat) (tl : Tile.t),
      Canvas.onScreenTiles c !! k = Some tl →
      reachable tl →
      NoDup (Stroke.getID <$> Tile.getStrokes tl) →
      ∃ tl', Canvas.onScreenTiles (Canvas.erase ev c).2 !! k = Some tl'
             ∧ (Tile.numElements tl ≤ Tile.numElements tl' + 1)%nat)
  ∧ (∀ (c : Canvas.state) (ev : PointerEvent) (k : nat) (tl : Tile.t),
      canvas_reachable c →
      Canvas.onScreenTiles c !! k = Some tl →
      ∃ tl', Canvas.onScreenTiles (Canvas.erase ev c).2 !! k = Some tl'
             ∧ (Tile.numElements tl ≤ Tile.numElements tl' + 1)%nat)
  ∧ (let c := sample_canvas [sample_A; sample_B; sample_C] 0 0 in
     let ev := mkEvent 2 50 50 in
     passes_within sample_A 50 50
     ∧ passes_within sample_B 50 50
     ∧ passes_within sample_C 50 50
     ∧ ∃ tl', Canvas.onScreenTiles (Canvas.erase ev c).2 = [tl']
              ∧ Tile.getStrokes tl' = [sample_A; sample_B]
              ∧ Tile.numElements tl' = 2%nat).
Proof.
  assert (∀ (c : Canvas.state) (ev : PointerEvent),
      Canvas.onScreenTiles (Canvas.erase ev c).2 = Canvas.onScreenTiles c
      ∨ ∃ k tl s,
          Canvas.onScreenTiles c !! k = Some tl
          ∧ s ∈ Tile.getStrokes tl
          ∧ passes_within s (offsetX ev) (offsetY ev)
          ∧ Canvas.onScreenTiles (Canvas.erase ev c).2
            = <[k := Tile.removeStroke tl (Stroke.getID s)]> (Canvas.onScreenTiles c)
          ∧ ∀ s', s' ∈ Tile.getStrokes tl → Stroke.getID s' ≠ Stroke.getID s →
                  s' ∈ Tile.getStrokes (Tile.removeStroke tl (Stroke.getID s))) as Hone.
  { intros c ev.
    destruct (erase_spec_holds c ev) as [ | | | | | k tl i s ? ? Ht ? Hi Hp ?];
      try (by left).
    right. exists k, tl, s. apply getTile_Some in Ht as [Hk _].
    split; [done|]. split; [by eapply list_elem_of_lookup_2|].
    split; [done|]. split; [done|].
    intros s' Hs' Hne. unfold Tile.getStrokes, Tile.removeStroke.
    destruct (negb _); [done|]. simpl. by apply list_elem_of_filter. }
  assert (∀ (c : Canvas.state) (ev : PointerEvent) (k : nat) (tl : Tile.t),
      Canvas.onScreenTiles c !! k = Some tl →
      reachable tl →
      NoDup (Stroke.getID <$> Tile.getStrokes tl) →
      ∃ tl', Canvas.onScreenTiles (Canvas.erase ev c).2 !! k = Some tl'
             ∧ (Tile.numElements tl ≤ Tile.numElements tl' + 1)%nat) as Hunique.
  { intros c ev k tl Hk Hr Hnd.
    destruct (Hone c ev) as [-> | (k0 & tl0 & s & Hk0 & Hs & _ & -> & _)].
    { exists tl. split; [done | lia]. }
    destruct (decide (k0 = k)) as [->|Hne].
    + rewrite Hk in Hk0. injection Hk0 as <-.
      exists (Tile.removeStroke tl (Stroke.getID s)).
      split; [apply list_lookup_insert_eq; by eapply lookup_lt_Some|].
      destruct (removeStroke_strokes tl (Stroke.getID s) (reachable_ids tl Hr)) as [Hf _].
      apply list_elem_of_lookup_1 in Hs as [i Hi].
      unfold Tile.numElements. rewrite Hf.
      unfold Tile.getStrokes in *. rewrite (filter_unique_delete _ i s Hnd Hi).
      rewrite length_delete by (by eexists). lia.
    + exists tl. split; [by rewrite list_lookup_insert_ne | lia]. }
  split; [exact Hone|]. split; [exact Hunique|]. split.
  - intros c ev k tl Hc Hk.
    destruct (canvas_reachable_tiles c k tl Hc Hk) as [Hr Hnd]. by apply Hunique.
  - cbv zeta.
    split; [passes_at 0%Z 50 50|].
    split; [passes_at 1%Z 52 48|].
    split; [passes_at 0%Z 48 52|].
    eexists. split; [reflexivity|]. split; reflexivity.
Qed.

Lemma erase_removes_at_most_one_witness :
  let c := sample_canvas [sample_A; sample_B] 0 0 in
  let tl := sample_tile [sample_A; sample_B] in
  Canvas.onScreenTiles c !! 0%nat = Some tl
  ∧ reachable tl
  ∧ NoDup (Stroke.getID <$> Tile.getStrokes tl)
  ∧ ∃ tl', Canvas.onScreenTiles (Canvas.erase (mkEvent 2 50 50) c).2 !! 0%nat = Some tl'
           ∧ (Tile.numElements tl ≤ Tile.numElements tl' + 1)%nat.
Proof.
  cbv zeta.
  assert (NoDup (Stroke.getID <$> Tile.getStrokes (sample_tile [sample_A; sample_B]))) as Hnd.
  { apply (NoDup_cons_2 0%nat [1%nat]).
    - intros H. apply list_elem_of_singleton in H. discriminate.
    - apply NoDup_singleton. }
  split; [reflexivity|]. split; [apply sample_tile_reachable|]. split; [exact Hnd|].
  apply (proj1 (proj2 erase_removes_at_most_one)
               (sample_canvas [sample_A; sample_B] 0 0) (mkEvent 2 50 50) 0%nat
               (sample_tile [sample_A; sample_B]) eq_refl
               (sample_tile_reachable _) Hnd).
Defined.

(** C4. An erase event within moveThreshold of the last position handled, on
    each axis, does nothing: the handler returns the state as it was, with
    the tiles, lastX and lastY and the drawing untouched, whatever lies
    under the pointer and even where no tile does.  An event outside that
    square is handled: over a tile in which a stroke passes near the
    pointer, the position is recorded and the tile loses a stroke.  From
    (100, 100), the events at (102, 103) and (105, 105) are suppressed and
    the event at (110, 100) is not. *)
Theorem erase_movement_suppression :
  (∀ (c : Canvas.state) (ev : PointerEvent),
      suppressed c ev → Canvas.erase ev c = (Normal (), c))
  ∧ (∀ (c : Canvas.state) (ev : PointerEvent) (k : nat) (tl : Tile.t),
      Canvas.isErasing c = true →
      ¬ suppressed c ev →
      Canvas.getTile (Canvas.onScreenTiles c) (Num (offsetX ev)) (Num (offsetY ev)) = Some (k, tl) →
      reachable tl →
      (∃ s, s ∈ Tile.getStrokes tl ∧ passes_within s (offsetX ev) (offsetY ev)) →
      ∃ c' tl',
        Canvas.erase ev c = (Normal (), c')
        ∧ Canvas.lastX c' = offsetX ev
        ∧ Canvas.lastY c' = offsetY ev
        ∧ Canvas.onScreenTiles c' !! k = Some tl'
        ∧ (Tile.numElements tl' < Tile.numElements tl)%nat)
  ∧ (let c := sample_canvas [sample_D] 100 100 in
     passes_within sample_D 102 103
     ∧ suppressed c (mkEvent 2 102 103)
     ∧ Canvas.erase (mkEvent 2 102 103) c = (Normal (), c)
     ∧ suppressed c (mkEvent 2 105 105)
     ∧ (moveThreshold ^ 2 < (105 - 100) ^ 2 + (105 - 100) ^ 2)
     ∧ ¬ suppressed c (mkEvent 2 110 100)
     ∧ ∃ c' tl',
         Canvas.erase (mkEvent 2 110 100) c = (Normal (), c')
         ∧ Canvas.lastX c' = 110 ∧ Canvas.lastY c' = 100
         ∧ Canvas.onScreenTiles c' = [tl']
         ∧ Tile.getStrokes tl' = []).
Proof.
  split; [|split].
  - intros c ev Hs.
    destruct (erase_spec_holds c ev); done.
  - intros c ev k tl He Hns Ht Hr (s & Hs & Hp).
    pose proof (reachable_not_empty tl s Hr Hs) as Hne.
    destruct (erase_spec_holds c ev) as [H | ? H | ? ? H | k' tl' ? ? H Hem
                                         | k' tl' ? ? H Hem Hmiss
                                         | k' tl' i s0 ? ? H Hem Hi Hp0 Hlater];
      try congruence; try done;
      rewrite Ht in H; injection H as <- <-; try congruence.
    + exfalso. by apply (Hmiss s).
    + eexists _, (Tile.removeStroke tl (Stroke.getID s0)).
      split; [done|]. split; [done|]. split; [done|].
      apply getTile_Some in Ht as [Hk _]. split.
      * simpl. apply list_lookup_insert_eq. by eapply lookup_lt_Some.
      * destruct (removeStroke_strokes tl (Stroke.getID s0) (reachable_ids tl Hr)) as [Hf _].
        unfold Tile.numElements. rewrite Hf.
        apply (length_filter_lt _ _ s0); [by eapply list_elem_of_lookup_2|].
        intros Hn. by apply Hn.
  - cbv zeta.
    split; [passes_at 0%Z 102 103|].
    split; [split; vm_compute; discriminate|].
    split; [reflexivity|].
    split; [split; vm_compute; discriminate|].
    split; [reflexivity|].
    split; [intros [H _]; vm_compute in H; apply H; reflexivity|].
    eexists _, _. split; [reflexivity|]. repeat split; reflexivity.
Qed.

Lemma erase_movement_suppression_witness :
  let c := sample_canvas [sample_A] 48 53 in
  let ev := mkEvent 2 50 50 in
  passes_within sample_A 50 50
  ∧ suppressed c ev
  ∧ Canvas.erase ev c = (Normal (), c).
Proof.
  cbv zeta.
  split; [passes_at 0%Z 50 50|].
  assert (suppressed (sample_canvas [sample_A] 48 53) (mkEvent 2 50 50)) as Hs
    by (split; vm_compute; discriminate).
  split; [exact Hs|].
  exact (proj1 erase_movement_suppression _ _ Hs).
Defined.

(** * Further properties of the code *)

(** ** Stroke *)

Lemma length_smoothPath (s : Stroke.t) :
  length (Stroke.path (Stroke.smoothPath s)) = length (Stroke.path s).
Proof. apply (smooth_loop_spec (length (Stroke.path s)) 2 s); lia. Qed.

Lemma smoothPath_head (s : Stroke.t) (k : Z) :
  (k < 2)%Z → aget (Stroke.path (Stroke.smoothPath s)) k = aget (Stroke.path s) k.
Proof.
  intros Hk. destruct (smooth_loop_spec (length (Stroke.path s)) 2 s) as (_ & H & _);
    [lia | lia |]. apply H. lia.
Qed.

Lemma aget_app_l (a b : list jsval) (k : Z) :
  (k < Z.of_nat (length a))%Z → aget (a ++ b) k = aget a k.
Proof.
  intros Hk. unfold aget. destruct (Z.ltb_spec k 0); [done|].
  rewrite lookup_app_l by lia. done.
Qed.

Lemma built_even (s : Stroke.t) : built s → ∃ n : nat, length (Stroke.path s) = (2 * n)%nat.
Proof.
  induction 1 as [m | s x y _ [n Hn] | s _ [n Hn]].
  - by exists 0%nat.
  - exists (S n). rewrite length_addToPath, length_app, Hn. simpl. lia.
  - exists n. by rewrite length_smoothPath.
Qed.

Lemma built_vertex0 (s : Stroke.t) :
  built s → Stroke.getPathVertex s 0 = Normal (Stroke.getStartX s, Stroke.getStartY s).
Proof.
  intros Hb. rewrite getPathVertex_eq. unfold Stroke.getStartX, Stroke.getStartY.
  induction Hb as [m | s x y Hb IH | s Hb IH].
  - done.
  - destruct (built_even s Hb) as [n Hn].
    rewrite length_addToPath. unfold Stroke.addToPath.
    destruct n as [|n].
    + apply nil_length_inv in Hn. rewrite Hn. done.
    + destruct (Nat.eqb_spec (length (Stroke.path s)) 0) as [H0|_]; [lia|].
      simpl in *. rewrite !aget_app_l by lia. done.
  - rewrite !smoothPath_head by lia.
    destruct (smooth_loop_other (length (Stroke.path s)) 2 s) as (_ & H1 & H2).
    unfold Stroke.smoothPath. by rewrite H1, H2.
Qed.

(** X1. A stroke of a drawing session has an even number of entries, and its
    cached start is its vertex 0, the pair (undefined, undefined) while it
    is empty: appending and smoothing never separate the two. *)
Theorem built_start_is_first_vertex (s : Stroke.t) :
  built s →
  (∃ n : nat, length (Stroke.path s) = (2 * n)%nat)
  ∧ Stroke.getPathVertex s 0 = Normal (Stroke.getStartX s, Stroke.getStartY s).
Proof. intros Hb. split; [by apply built_even | by apply built_vertex0]. Qed.

Lemma built_start_is_first_vertex_witness :
  let s := Stroke.smoothPath (captured (Stroke.new [] 0).1
                                [(Num 1, Num 2); (Num 3, Num 4); (Num 5, Num 7)]) in
  built s ∧ Stroke.getPathVertex s 0 = Normal (Stroke.getStartX s, Stroke.getStartY s).
Proof.
  cbv zeta.
  assert (built (Stroke.smoothPath (captured (Stroke.new [] 0).1
                   [(Num 1, Num 2); (Num 3, Num 4); (Num 5, Num 7)]))) as Hb
    by (repeat constructor).
  split; [exact Hb|]. exact (proj2 (built_start_is_first_vertex _ Hb)).
Defined.

(** X2. smoothPath keeps the number of entries, the id and the start of
    every stroke, whatever its path; a stroke of at most two points (four
    entries) comes back as it was. *)
Theorem smoothPath_keeps_shape :
  (∀ s : Stroke.t,
      length (Stroke.path (Stroke.smoothPath s)) = length (Stroke.path s)
      ∧ Stroke.getID (Stroke.smoothPath s) = Stroke.getID s
      ∧ Stroke.getStartX (Stroke.smoothPath s) = Stroke.getStartX s
      ∧ Stroke.getStartY (Stroke.smoothPath s) = Stroke.getStartY s)
  ∧ (∀ s : Stroke.t, (length (Stroke.path s) ≤ 4)%nat → Stroke.smoothPath s = s).
Proof.
  split.
  - intros s. split; [apply length_smoothPath|]. apply smooth_loop_other.
  - intros s Hlen. unfold Stroke.smoothPath.
    destruct (length (Stroke.path s)) as [|n] eqn:Hn; [done|]. simpl.
    destruct (Qlt_bool _ _) eqn:Hc; [|done].
    apply lt_getLength in Hc. lia.
Qed.

Lemma smoothPath_keeps_shape_witness :
  let s := captured (Stroke.new [] 0).1 [(Num 1, Num 2); (Num 30, Num 4)] in
  (length (Stroke.path s) ≤ 4)%nat ∧ Stroke.smoothPath s = s.
Proof.
  cbv zeta. split; [simpl; lia|].
  apply (proj2 smoothPath_keeps_shape). simpl. lia.
Defined.

Section SmoothInvariant.

Variables PX PY : Q → Prop.
Hypothesis PX_blend :
  ∀ a b c, PX a → PX b → PX c → PX (0.5 ^ 2 * a + 2 * 0.5 ^ 2 * b + 0.5 ^ 2 * c).
Hypothesis PY_blend :
  ∀ a b c, PY a → PY b → PY c → PY (0.5 ^ 2 * a + 2 * 0.5 ^ 2 * b + 0.5 ^ 2 * c).

Lemma smooth_body_sat (i : Z) (s : Stroke.t) :
  (2 ≤ i)%Z → (i * 2 < Z.of_nat (length (Stroke.path s)))%Z →
  vertices_sat PX PY (Stroke.path s) →
  vertices_sat PX PY (Stroke.path (Stroke.smooth_body i s)).
Proof.
  intros Hi Hlt Hsat j Hj Hjl. rewrite smooth_body_length in Hjl by done.
  rewrite !smooth_body_aget by done. cbv zeta.
  destruct (decide (j = i - 1)%Z) as [->|Hne].
  - destruct (Hsat (i - 2)%Z) as (x0 & y0 & Hx0 & Hy0 & ? & ?); [lia | lia |].
    destruct (Hsat (i - 1)%Z) as (x1 & y1 & Hx1 & Hy1 & ? & ?); [lia | lia |].
    destruct (Hsat i) as (x2 & y2 & Hx2 & Hy2 & ? & ?); [lia | lia |].
    replace ((i - 2) * 2)%Z with (i * 2 - 4)%Z in * by lia.
    replace (i * 2 - 4 + 1)%Z with (i * 2 - 3)%Z in * by lia.
    replace ((i - 1) * 2)%Z with (i * 2 - 2)%Z in * by lia.
    replace (i * 2 - 2 + 1)%Z with (i * 2 - 1)%Z in * by lia.
    rewrite Hx0, Hy0, Hx1, Hy1, Hx2, Hy2.
    repeat case_decide; try lia.
    eexists _, _. split; [reflexivity|]. split; [reflexivity|].
    split; [by apply PX_blend | by apply PY_blend].
  - repeat case_decide; try lia. by apply Hsat.
Qed.

Lemma smooth_loop_sat (fuel : nat) :
  ∀ (i : Z) (s : Stroke.t),
    (2 ≤ i)%Z →
    vertices_sat PX PY (Stroke.path s) →
    vertices_sat PX PY (Stroke.path (Stroke.smooth_loop fuel i s)).
Proof.
  induction fuel as [|fuel IH]; intros i s Hi Hsat; simpl; [done|].
  destruct (Qlt_bool _ _) eqn:Hc; [|done].
  apply lt_getLength in Hc. apply IH; [lia|]. by apply smooth_body_sat.
Qed.

Lemma smoothPath_sat (s : Stroke.t) :
  vertices_sat PX PY (Stroke.path s) →
  vertices_sat PX PY (Stroke.path (Stroke.smoothPath s)).
Proof. apply smooth_loop_sat. lia. Qed.

End SmoothInvariant.

Lemma blend_between (lo hi a b c : Q) :
  lo <= a <= hi → lo <= b <= hi → lo <= c <= hi →
  lo <= 0.5 ^ 2 * a + 2 * 0.5 ^ 2 * b + 0.5 ^ 2 * c <= hi.
Proof. unfold Qpower. simpl. intros [? ?] [? ?] [? ?]. split; lra. Qed.

(** X3. Smoothing stays inside the bounding box: when every vertex of a
    stroke is a pair of numbers with x in [lox, hix] and y in [loy, hiy],
    so is every vertex of the smoothed stroke; in particular no NaN or
    undefined entry appears. *)
Theorem smoothPath_in_bounding_box (s : Stroke.t) (lox hix loy hiy : Q) :
  vertices_sat (λ x, lox <= x <= hix) (λ y, loy <= y <= hiy) (Stroke.path s) →
  vertices_sat (λ x, lox <= x <= hix) (λ y, loy <= y <= hiy)
               (Stroke.path (Stroke.smoothPath s)).
Proof. apply smoothPath_sat; intros a b c; apply blend_between. Qed.

(** Checks [vertices_sat] on a concrete path of at most four vertices. *)
Ltac sat_by_cases :=
  let j := fresh "j" in let H0 := fresh in let H1 := fresh in let Hc := fresh in
  intros j H0 H1;
  match type of H1 with
  | (_ < Z.of_nat ?n)%Z => let v := eval vm_compute in n in change n with v in H1
  end;
  assert (j = 0 ∨ j = 1 ∨ j = 2 ∨ j = 3)%Z as Hc by lia;
  destruct Hc as [-> | [-> | [-> | ->]]];
  (eexists _, _; split; [reflexivity|]; split; [reflexivity|];
   repeat split; vm_compute; discriminate).

Lemma smoothPath_in_bounding_box_witness :
  let s := captured (Stroke.new [] 0).1
             [(Num 0, Num 0); (Num 10, Num 0); (Num 10, Num 10); (Num 0, Num 10)] in
  vertices_sat (λ x, 0 <= x <= 10) (λ y, 0 <= y <= 10) (Stroke.path s)
  ∧ vertices_sat (λ x, 0 <= x <= 10) (λ y, 0 <= y <= 10)
                 (Stroke.path (Stroke.smoothPath s)).
Proof.
  cbv zeta.
  assert (vertices_sat (λ x, 0 <= x <= 10) (λ y, 0 <= y <= 10)
            (Stroke.path (captured (Stroke.new [] 0).1
               [(Num 0, Num 0); (Num 10, Num 0); (Num 10, Num 10); (Num 0, Num 10)]))) as H
    by sat_by_cases.
  split; [exact H|]. exact (smoothPath_in_bounding_box _ 0 10 0 10 H).
Defined.

Lemma yields_flat (s : Stroke.t) (pts : list (jsval * jsval)) :
  Stroke.path s = flat_map (λ p, [p.1; p.2]) pts →
  ∀ (fuel k : nat), (length pts < fuel + k)%nat →
    yields fuel s (Z.of_nat k) = Normal (drop k pts).
Proof.
  intros Hp. induction fuel as [|fuel IH]; intros k Hk; simpl.
  - by rewrite drop_ge by lia.
  - unfold Stroke.next. destruct (Qlt_bool _ _) eqn:Hc.
    + apply lt_getLength in Hc. rewrite Hp, flat_points_length in Hc.
      destruct (lookup_lt_is_Some_2 pts k) as [p Hk']; [lia|].
      destruct (flat_points_lookup _ _ _ Hk') as [H1 H2].
      rewrite getPathVertex_eq, Hp.
      replace (Z.of_nat k * 2)%Z with (Z.of_nat (2 * k)) by lia.
      replace (Z.of_nat (2 * k) + 1)%Z with (Z.of_nat (2 * k + 1)) by lia.
      rewrite (aget_lookup _ _ _ H1), (aget_lookup _ _ _ H2).
      replace (Z.of_nat k + 1)%Z with (Z.of_nat (S k)) by lia.
      rewrite IH by lia. rewrite (drop_S _ _ _ Hk'). by destruct p.
    + rewrite <- not_true_iff_false, lt_getLength, Hp, flat_points_length in Hc.
      by rewrite drop_ge by lia.
Qed.

(** X4. Round trip of appending and iterating: a for...of over a stroke
    built by appending the points pts to a new stroke receives exactly pts,
    in order, and ends normally. *)
Theorem iterate_captured (m : nat) (pts : list (jsval * jsval)) :
  iterate (captured (Stroke.new [] m).1 pts) = Normal pts.
Proof.
  assert (Stroke.path (captured (Stroke.new [] m).1 pts)
          = flat_map (λ p, [p.1; p.2]) pts) as Hp by (by rewrite captured_path).
  unfold iterate.
  rewrite (yields_flat _ pts Hp _ 0%nat); [done|].
  rewrite Hp, flat_points_length. lia.
Qed.

(** ** Tile *)

Lemma filter_ne_absent (n : nat) (ids : list nat) :
  n ∉ ids → filter (λ s, s ≠ n) ids = ids.
Proof.
  induction ids as [|a ids IH]; [done|]. rewrite not_elem_of_cons, filter_cons.
  intros [Hne Hl]. destruct (decide (a ≠ n)) as [|Hn]; [by rewrite IH|].
  exfalso. apply Hn. intros Heq. by apply Hne.
Qed.

Lemma includes_false (ids : list nat) (n : nat) : Tile.includes ids n = false ↔ n ∉ ids.
Proof. by rewrite <- not_true_iff_false, includes_iff. Qed.

Lemma removeStroke_addStroke_eq (tl : Tile.t) (s : Stroke.t) :
  reachable tl →
  Stroke.getID s ∉ Tile.strokeIDs tl →
  Tile.removeStroke (Tile.addStroke tl s) (Stroke.getID s) = tl.
Proof.
  intros Hr Hnotin. pose proof (reachable_ids tl Hr) as Hids.
  unfold Tile.removeStroke. simpl.
  assert (Tile.includes (Tile.strokeIDs tl ++ [Stroke.getID s]) (Stroke.getID s) = true) as ->.
  { apply includes_iff, elem_of_app. right. left. }
  simpl. rewrite !filter_app, !filter_cons, !filter_nil.
  destruct (decide (Stroke.getID s ≠ Stroke.getID s)) as [Hne|_]; [done|].
  rewrite filter_ne_absent by done.
  rewrite filter_absent by (by rewrite <- Hids).
  rewrite !app_nil_r. by destruct tl.
Qed.

(** X5. Round trip of adding and removing: in a tile built by addStroke and
    removeStroke that does not hold the id of s, adding s and then removing
    its id gives back the tile, with both of its lists as they were. *)
Theorem removeStroke_addStroke (tl : Tile.t) (s : Stroke.t) :
  reachable tl →
  Stroke.getID s ∉ Tile.strokeIDs tl →
  Tile.removeStroke (Tile.addStroke tl s) (Stroke.getID s) = tl.
Proof. apply removeStroke_addStroke_eq. Qed.

Lemma removeStroke_addStroke_witness :
  let tl := sample_tile [sample_A; sample_B] in
  reachable tl
  ∧ (Stroke.getID sample_C ∉ Tile.strokeIDs tl)
  ∧ Tile.removeStroke (Tile.addStroke tl sample_C) (Stroke.getID sample_C) = tl.
Proof.
  cbv zeta.
  assert (Stroke.getID sample_C ∉ Tile.strokeIDs (sample_tile [sample_A; sample_B])) as Hn.
  { intros H. apply elem_of_cons in H as [H|H]; [discriminate|].
    apply list_elem_of_singleton in H. discriminate. }
  split; [apply sample_tile_reachable|]. split; [exact Hn|].
  exact (removeStroke_addStroke _ sample_C (sample_tile_reachable _) Hn).
Defined.

Lemma removeStroke_ids_absent (tl : Tile.t) (n : nat) :
  n ∉ Tile.strokeIDs (Tile.removeStroke tl n).
Proof.
  unfold Tile.removeStroke. destruct (Tile.includes _ _) eqn:Hi; simpl.
  - rewrite list_elem_of_filter. by intros [? _].
  - by apply includes_false.
Qed.

Lemma removeStroke_ids_other (tl : Tile.t) (a b : nat) :
  a ≠ b → Tile.includes (Tile.strokeIDs (Tile.removeStroke tl a)) b
          = Tile.includes (Tile.strokeIDs tl) b.
Proof.
  intros Hab. unfold Tile.removeStroke. destruct (negb _); [done|]. simpl.
  apply eq_true_iff_eq. rewrite !includes_iff, list_elem_of_filter.
  split; [tauto|]. intros ?. split; [congruence | done].
Qed.

(** X6. Removing by id can be repeated and reordered: removing the same id
    a second time changes nothing, after a removal the id is in no list of
    the tile, and two removals give the same tile in either order. This
    holds for every tile, also one whose two lists disagree. *)
Theorem removeStroke_repeat_reorder (tl : Tile.t) (a b : nat) :
  Tile.removeStroke (Tile.removeStroke tl a) a = Tile.removeStroke tl a
  ∧ (a ∉ Tile.strokeIDs (Tile.removeStroke tl a))
  ∧ Tile.removeStroke (Tile.removeStroke tl a) b
    = Tile.removeStroke (Tile.removeStroke tl b) a.
Proof.
  assert (∀ n, Tile.removeStroke (Tile.removeStroke tl n) n = Tile.removeStroke tl n) as Hidem.
  { intros n. pose proof (removeStroke_ids_absent tl n) as Hn.
    apply includes_false in Hn.
    unfold Tile.removeStroke at 1. by rewrite Hn. }
  split; [apply Hidem|]. split; [apply removeStroke_ids_absent|].
  destruct (decide (a = b)) as [->|Hab]; [done|].
  unfold Tile.removeStroke at 1 3.
  rewrite (removeStroke_ids_other tl a b Hab), (removeStroke_ids_other tl b a) by done.
  unfold Tile.removeStroke.
  destruct (Tile.includes (Tile.strokeIDs tl) a) eqn:Ha,
           (Tile.includes (Tile.strokeIDs tl) b) eqn:Hb; simpl; try done.
  f_equal; rewrite !list_filter_filter; apply list_filter_iff; intros; tauto.
Qed.

(** X7. Tiles laid on the grid of step [Tile.size] do not overlap: a point
    enclosed by the tiles of origins (a*size, b*size) and (a'*size, b'*size),
    for integers a, b, a', b', forces a = a' and b = b'. *)
Theorem tiles_grid_disjoint (a b a' b' : Z) (x y : Q) :
  Tile.enclosesVertex
    (Tile.new (Num (inject_Z a * Tile.size)) (Num (inject_Z b * Tile.size)))
    (Num x) (Num y) = true →
  Tile.enclosesVertex
    (Tile.new (Num (inject_Z a' * Tile.size)) (Num (inject_Z b' * Tile.size)))
    (Num x) (Num y) = true →
  a = a' ∧ b = b'.
Proof.
  rewrite !enclosesVertex_iff. unfold Tile.size.
  intros [[? ?] [? ?]] [[? ?] [? ?]].
  assert (∀ u v : Z, inject_Z u * 2000 < inject_Z v * 2000 + 2000 → (u < v + 1)%Z) as Hlt.
  { intros u v Huv. rewrite Zlt_Qlt, inject_Z_plus.
    change (inject_Z 1) with 1. lra. }
  assert (a < a' + 1)%Z by (apply Hlt; lra).
  assert (a' < a + 1)%Z by (apply Hlt; lra).
  assert (b < b' + 1)%Z by (apply Hlt; lra).
  assert (b' < b + 1)%Z by (apply Hlt; lra).
  lia.
Qed.

Lemma tiles_grid_disjoint_witness :
  Tile.enclosesVertex
    (Tile.new (Num (inject_Z 1 * Tile.size)) (Num (inject_Z 0 * Tile.size)))
    (Num 2500) (Num 100) = true
  ∧ (1 = 1 ∧ 0 = 0)%Z.
Proof.
  split; [reflexivity|].
  exact (tiles_grid_disjoint 1 0 1 0 2500 100 eq_refl eq_refl).
Defined.

(** ** withinSquare *)

Lemma jabs_jsub_sym (a b : jsval) : jabs (jsub a b) = jabs (jsub b a).
Proof.
  destruct a as [p| |], b as [q| |]; try reflexivity.
  unfold jabs, jsub, arith2, to_number. f_equal. apply Qabs_Qminus.
Qed.

Lemma jle_far (a b r : jsval) :
  a = NaN ∨ a = Undef ∨ b = NaN ∨ b = Undef → jle (jabs (jsub a b)) r = false.
Proof.
  intros [-> | [-> | [-> | ->]]]; try reflexivity; by destruct a.
Qed.

(** X8. withinSquare does not depend on the order of the two points, and is
    false as soon as a coordinate of either point is undefined or NaN. *)
Theorem withinSquare_symmetric (x1 y1 x2 y2 r : jsval) :
  Canvas.withinSquare x1 y1 x2 y2 r = Canvas.withinSquare x2 y2 x1 y1 r
  ∧ (∀ v, v = NaN ∨ v = Undef →
          Canvas.withinSquare v y1 x2 y2 r = false
          ∧ Canvas.withinSquare x1 v x2 y2 r = false
          ∧ Canvas.withinSquare x1 y1 v y2 r = false
          ∧ Canvas.withinSquare x1 y1 x2 v r = false).
Proof.
  unfold Canvas.withinSquare. split.
  - by rewrite (jabs_jsub_sym x1 x2), (jabs_jsub_sym y1 y2).
  - intros v Hv. repeat split.
    + rewrite (jle_far v x2) by tauto. done.
    + rewrite (jle_far v y2) by tauto. apply andb_false_r.
    + rewrite (jle_far x1 v) by tauto. done.
    + rewrite (jle_far y1 v) by tauto. apply andb_false_r.
Qed.

Lemma withinSquare_symmetric_witness :
  (NaN = NaN ∨ NaN = Undef)
  ∧ Canvas.withinSquare (Num 1) (Num 2) (Num 3) NaN (Num 5) = false.
Proof.
  split; [left; reflexivity|].
  apply (proj2 (withinSquare_symmetric (Num 1) (Num 2) (Num 3) (Num 4) (Num 5)) NaN).
  left. reflexivity.
Defined.

(** ** The component: what every state satisfies *)

Lemma vertices_sat_nil (PX PY : Q → Prop) : vertices_sat PX PY [].
Proof. intros j Hj Hl. simpl in Hl. lia. Qed.

Lemma vertices_sat_app (PX PY : Q → Prop) (p : list jsval) (n : nat) (x y : Q) :
  length p = (2 * n)%nat → vertices_sat PX PY p → PX x → PY y →
  vertices_sat PX PY (p ++ [Num x; Num y]).
Proof.
  intros Hlen Hsat Hx Hy j Hj Hl. rewrite length_app in Hl. simpl in Hl.
  destruct (decide (j * 2 < Z.of_nat (length p))%Z) as [Hin|Hout].
  - destruct (Hsat j Hj Hin) as (a & b & Ha & Hb & ? & ?).
    exists a, b. rewrite !aget_app_l by lia. done.
  - assert (j = Z.of_nat n) as -> by lia.
    exists x, y.
    replace (Z.of_nat n * 2)%Z with (Z.of_nat (length p + 0)) by lia.
    replace (Z.of_nat (length p + 0) + 1)%Z with (Z.of_nat (length p + 1)) by lia.
    rewrite (aget_lookup _ _ (Num x)), (aget_lookup _ _ (Num y)); [done | |].
    + rewrite lookup_app_r by lia.
      by replace (length p + 1 - length p)%nat with 1%nat by lia.
    + rewrite lookup_app_r by lia.
      by replace (length p + 0 - length p)%nat with 0%nat by lia.
Qed.

Lemma vertices_sat_numbers (p : list jsval) :
  vertices_sat (λ _, True) (λ _, True) p → Forall (λ v, ∃ q, v = Num q) p.
Proof.
  intros Hsat. apply Forall_lookup. intros i v Hi.
  pose proof (lookup_lt_Some _ _ _ Hi) as Hlt.
  apply aget_lookup in Hi.
  destruct (Nat.Even_or_Odd i) as [[m ->] | [m ->]].
  - destruct (Hsat (Z.of_nat m)) as (a & b & Ha & _); [lia | lia |].
    exists a. rewrite <- Hi, <- Ha. f_equal. lia.
  - destruct (Hsat (Z.of_nat m)) as (a & b & _ & Hb & _); [lia | lia |].
    exists b. rewrite <- Hi, <- Hb. f_equal. lia.
Qed.

Lemma removeStroke_bounds (tl : Tile.t) (n : nat) :
  Tile.startX (Tile.removeStroke tl n) = Tile.startX tl
  ∧ Tile.startY (Tile.removeStroke tl n) = Tile.startY tl
  ∧ Tile.endX (Tile.removeStroke tl n) = Tile.endX tl
  ∧ Tile.endY (Tile.removeStroke tl n) = Tile.endY tl.
Proof. unfold Tile.removeStroke. by destruct (negb _). Qed.

Lemma removeStroke_Forall (P : Stroke.t → Prop) (tl : Tile.t) (n : nat) :
  Forall P (Tile.strokes tl) → Forall P (Tile.strokes (Tile.removeStroke tl n)).
Proof.
  intros H. unfold Tile.removeStroke. destruct (negb _); [done|]. simpl.
  apply Forall_forall. intros s [_ Hin]%list_elem_of_filter.
  by eapply Forall_forall in H.
Qed.

Lemma canvas_inv_ext (c c' : Canvas.state) :
  Canvas.masterId c' = Canvas.masterId c →
  Canvas.currStroke c' = Canvas.currStroke c →
  Canvas.onScreenTiles c' = Canvas.onScreenTiles c →
  (Canvas.isDrawing c' = false → Canvas.isDrawing c = false) →
  canvas_inv c → canvas_inv c'.
Proof.
  unfold canvas_inv. intros -> -> -> Hd (Hm & Hp & Hrest). split; [done|].
  split; [|done]. intros Hf. by apply Hp, Hd.
Qed.

Lemma canvas_inv_addToPath (c : Canvas.state) (x y : Q) :
  canvas_inv c →
  canvas_inv (Canvas.set_currStroke
                (Stroke.addToPath (Canvas.currStroke c) (Num x) (Num y))
                (Canvas.set_isDrawing true c)).
Proof.
  intros (Hm & _ & Hb & Hsat & Hts). unfold canvas_inv.
  cbn [Canvas.masterId Canvas.isDrawing Canvas.currStroke Canvas.onScreenTiles
       Canvas.set_currStroke Canvas.set_isDrawing].
  rewrite getID_addToPath. split; [done|]. split; [done|].
  split; [by constructor|]. split; [|done].
  destruct (built_even _ Hb) as [n Hn].
  rewrite length_addToPath. by eapply vertices_sat_app.
Qed.

Lemma canvas_inv_startDraw (ev : PointerEvent) (c : Canvas.state) :
  canvas_inv c → canvas_inv (Canvas.startDraw ev c).2.
Proof. intros Hc. exact (canvas_inv_addToPath c (offsetX ev) (offsetY ev) Hc). Qed.

Lemma canvas_inv_draw (ev : PointerEvent) (c : Canvas.state) :
  canvas_inv c → canvas_inv (Canvas.draw ev c).2.
Proof.
  unfold Canvas.draw. destruct (Canvas.isDrawing c) eqn:Hd; simpl; [|done].
  intros Hc. apply (canvas_inv_addToPath c (offsetX ev) (offsetY ev)) in Hc.
  revert Hc. apply canvas_inv_ext; simpl; try done. congruence.
Qed.

Lemma isEmpty_path (s : Stroke.t) : Stroke.isEmpty s = true ↔ Stroke.path s = [].
Proof.
  unfold Stroke.isEmpty. rewrite Nat.eqb_eq. split; [apply nil_length_inv | by intros ->].
Qed.

Lemma stored_ok_smoothPath (s : Stroke.t) :
  built s → Stroke.path s ≠ [] →
  vertices_sat (λ _, True) (λ _, True) (Stroke.path s) →
  stored_ok (Stroke.smoothPath s).
Proof.
  intros Hb Hne Hsat. split; [by constructor|]. split.
  - intros H. apply Hne, nil_length_inv. by rewrite <- length_smoothPath, H.
  - by apply smoothPath_sat.
Qed.

Lemma canvas_inv_endDraw (c : Canvas.state) :
  canvas_inv c → canvas_inv (Canvas.endDraw c).2 ∧ (Canvas.endDraw c).1 = Normal ().
Proof.
  intros (Hm & Hp & Hb & Hsat & tl & Hts & Hx & Hy & Hex & Hey & Hall).
  unfold Canvas.endDraw. simpl.
  destruct (Stroke.isEmpty (Canvas.currStroke c)) eqn:He.
  - split; [|done]. apply isEmpty_path in He.
    unfold canvas_inv. simpl. repeat split; try done. by exists tl.
  - rewrite Hts. simpl. split; [|done].
    unfold canvas_inv. simpl. split; [by rewrite Hm|].
    split; [done|]. split; [apply (built_new (Canvas.masterId c))|].
    split; [apply vertices_sat_nil|].
    eexists. split; [done|]. simpl. repeat split; try done.
    apply Forall_app. split; [done|]. apply Forall_singleton.
    apply stored_ok_smoothPath; try done.
    intros H. apply isEmpty_path in H. congruence.
Qed.

Lemma canvas_inv_erase (ev : PointerEvent) (c : Canvas.state) :
  canvas_inv c → canvas_inv (Canvas.erase ev c).2.
Proof.
  intros Hinv.
  destruct (erase_spec_holds c ev) as [ | | | | | k tl i s ? ? Ht ? Hi Hp ?]; try done.
  destruct Hinv as (Hm & Hd & Hb & Hsat & tl0 & Hts & Hx & Hy & Hex & Hey & Hall).
  apply getTile_Some in Ht as [Hk _]. rewrite Hts in Hk.
  destruct k as [|k]; [|done]. injection Hk as ->.
  unfold canvas_inv. simpl. rewrite Hts. simpl.
  repeat split; try done.
  exists (Tile.removeStroke tl (Stroke.getID s)). split; [done|].
  destruct (removeStroke_bounds tl (Stroke.getID s)) as (-> & -> & -> & ->).
  repeat split; try done. by apply removeStroke_Forall.
Qed.

Lemma canvas_inv_handle (e : Canvas.event) (c : Canvas.state) :
  canvas_inv c → canvas_inv (Canvas.handle e c).2.
Proof.
  assert (∀ ev c, canvas_inv c → canvas_inv (Canvas.pointerUp ev c).2) as Hup.
  { intros ev c' Hc'. unfold Canvas.pointerUp, Canvas.and_then.
    destruct (_ || _).
    - destruct (canvas_inv_endDraw c' Hc') as [H1 H2].
      destruct (Canvas.endDraw c') as [o c1]. simpl in *. subst o.
      destruct (_ || _); [|done]. simpl. revert H1. by apply canvas_inv_ext.
    - simpl. destruct (_ || _); [|done]. simpl. revert Hc'. by apply canvas_inv_ext. }
  destruct e as [ev|ev|ev|ev]; simpl; try apply Hup.
  - unfold Canvas.pointerDown.
    destruct (button ev =? 0)%Z; [apply canvas_inv_startDraw|].
    destruct (button ev =? 2)%Z; [|done].
    intros Hc. unfold Canvas.startErase. apply canvas_inv_erase.
    revert Hc. by apply canvas_inv_ext.
  - intros Hc. unfold Canvas.pointerMove, Canvas.and_then.
    pose proof (canvas_inv_draw ev c Hc) as H1.
    destruct (Canvas.draw ev c) as [[[]|err] c1] eqn:Hdraw; simpl in *; [|done].
    by apply canvas_inv_erase.
Qed.

Lemma canvas_reachable_inv (c : Canvas.state) : canvas_reachable c → canvas_inv c.
Proof.
  induction 1 as [|c e _ IH]; [|by apply canvas_inv_handle].
  unfold canvas_inv. simpl. split; [done|]. split; [done|].
  split; [apply (built_new 0)|]. split; [apply vertices_sat_nil|].
  eexists. split; [done|]. simpl. repeat split; done.
Qed.

Lemma enclosesVertex_origin (tl : Tile.t) (x y : Q) :
  Tile.startX tl = Num 0 → Tile.startY tl = Num 0 →
  Tile.endX tl = Num (0 + Tile.size) → Tile.endY tl = Num (0 + Tile.size) →
  Tile.enclosesVertex tl (Num x) (Num y) = true
  ↔ (0 <= x ∧ x < Tile.size) ∧ (0 <= y ∧ y < Tile.size).
Proof.
  intros Hx Hy Hex Hey.
  rewrite <- (Qplus_0_l Tile.size) at 1 2.
  rewrite <- (enclosesVertex_iff 0 0 x y).
  unfold Tile.enclosesVertex. by rewrite Hx, Hy, Hex, Hey.
Qed.

(** X9. Ids are handed out in increasing order: in every state of the
    component the counter is one ahead of the id of the stroke being drawn,
    every stroke kept in a tile has a smaller id, and no id occurs twice in
    a tile. *)
Theorem component_ids_increase (c : Canvas.state) :
  canvas_reachable c →
  Canvas.masterId c = S (Stroke.getID (Canvas.currStroke c))
  ∧ ∀ tl, tl ∈ Canvas.onScreenTiles c →
      NoDup (Stroke.getID <$> Tile.getStrokes tl)
      ∧ ∀ s, s ∈ Tile.getStrokes tl →
             (Stroke.getID s < Stroke.getID (Canvas.currStroke c))%nat.
Proof.
  intros Hc. destruct (canvas_reachable_inv c Hc) as (Hm & _).
  destruct (canvas_reachable_ok c Hc) as [_ Hts].
  split; [done|]. intros tl Htl.
  eapply Forall_forall in Hts as (_ & Hnd & Hlt); [|exact Htl].
  split; [done|]. intros s Hs. by eapply Forall_forall in Hlt.
Qed.

Lemma component_ids_increase_witness :
  let c := run [Canvas.PointerDown (mkEvent 0 10 10); Canvas.PointerMove (mkEvent 0 20 15);
                Canvas.PointerUp (mkEvent 0 20 15)] Canvas.init in
  canvas_reachable c ∧ Canvas.masterId c = S (Stroke.getID (Canvas.currStroke c)).
Proof.
  cbv zeta.
  assert (canvas_reachable
            (run [Canvas.PointerDown (mkEvent 0 10 10); Canvas.PointerMove (mkEvent 0 20 15);
                  Canvas.PointerUp (mkEvent 0 20 15)] Canvas.init)) as Hc
    by (repeat apply canvas_step; apply canvas_init).
  split; [exact Hc|]. exact (proj1 (component_ids_increase _ Hc)).
Defined.

Lemma getTile_single (tl : Tile.t) (x y : jsval) :
  Canvas.getTile [tl] x y = if Tile.enclosesVertex tl x y then Some (0%nat, tl) else None.
Proof.
  unfold Canvas.getTile. simpl. case_decide as H; [by rewrite H|].
  by destruct (Tile.enclosesVertex tl x y).
Qed.

(** X10. The component keeps one tile for ever, the square [0, size) x
    [0, size): in every state the lookup finds that tile for a pointer
    inside the square and gives null for a pointer outside; and between
    gestures the stroke being drawn is empty. *)
Theorem component_single_tile (c : Canvas.state) :
  canvas_reachable c →
  (∃ tl, Canvas.onScreenTiles c = [tl]
         ∧ ∀ x y : Q,
             Canvas.getTile (Canvas.onScreenTiles c) (Num x) (Num y) = Some (0%nat, tl)
             ↔ (0 <= x ∧ x < Tile.size) ∧ (0 <= y ∧ y < Tile.size))
  ∧ (∀ x y : Q,
       Canvas.getTile (Canvas.onScreenTiles c) (Num x) (Num y) = None
       ↔ ¬ ((0 <= x ∧ x < Tile.size) ∧ (0 <= y ∧ y < Tile.size)))
  ∧ (Canvas.isDrawing c = false → Stroke.isEmpty (Canvas.currStroke c) = true).
Proof.
  intros Hc.
  destruct (canvas_reachable_inv c Hc) as (_ & Hd & _ & _ & tl & Hts & Hx & Hy & Hex & Hey & _).
  split; [|split].
  - exists tl. split; [done|]. intros x y.
    rewrite Hts, getTile_single, <- (enclosesVertex_origin tl x y) by done.
    by destruct (Tile.enclosesVertex _ _ _).
  - intros x y.
    rewrite Hts, getTile_single, <- (enclosesVertex_origin tl x y) by done.
    destruct (Tile.enclosesVertex _ _ _); split; done.
  - intros Hf. by apply isEmpty_path, Hd.
Qed.

Lemma component_single_tile_witness :
  let c := run [Canvas.PointerDown (mkEvent 2 10 10)] Canvas.init in
  canvas_reachable c
  ∧ Canvas.getTile (Canvas.onScreenTiles c) (Num 2500) (Num 100) = None.
Proof.
  cbv zeta.
  assert (canvas_reachable (run [Canvas.PointerDown (mkEvent 2 10 10)] Canvas.init)) as Hc
    by (repeat apply canvas_step; apply canvas_init).
  split; [exact Hc|].
  apply (proj1 (proj2 (component_single_tile _ Hc))).
  intros [[_ H] _]. vm_compute in H. discriminate.
Defined.

(** X11. Every stroke kept in a tile of the component is well formed: it is
    not empty, its path holds an even number of entries, all of them
    numbers, and its start is its first vertex. *)
Theorem component_strokes_well_formed (c : Canvas.state) (tl : Tile.t) (s : Stroke.t) :
  canvas_reachable c →
  tl ∈ Canvas.onScreenTiles c →
  s ∈ Tile.getStrokes tl →
  Stroke.isEmpty s = false
  ∧ (∃ n : nat, length (Stroke.path s) = (2 * n)%nat)
  ∧ Forall (λ v, ∃ q, v = Num q) (Stroke.path s)
  ∧ Stroke.getPathVertex s 0 = Normal (Stroke.getStartX s, Stroke.getStartY s).
Proof.
  intros Hc Htl Hs.
  destruct (canvas_reachable_inv c Hc) as (_ & _ & _ & _ & tl0 & Hts & _ & _ & _ & _ & Hall).
  rewrite Hts in Htl. apply list_elem_of_singleton in Htl as ->.
  eapply Forall_forall in Hall as (Hb & Hne & Hsat); [|exact Hs].
  split; [|split; [by apply built_even | split;
                   [by apply vertices_sat_numbers | by apply built_vertex0]]].
  apply not_true_iff_false. by rewrite isEmpty_path.
Qed.

Lemma component_strokes_well_formed_witness :
  let c := run [Canvas.PointerDown (mkEvent 0 10 10); Canvas.PointerMove (mkEvent 0 20 15);
                Canvas.PointerUp (mkEvent 0 20 15)] Canvas.init in
  ∃ tl s, canvas_reachable c
          ∧ tl ∈ Canvas.onScreenTiles c
          ∧ s ∈ Tile.getStrokes tl
          ∧ Stroke.isEmpty s = false.
Proof.
  cbv zeta.
  assert (canvas_reachable
            (run [Canvas.PointerDown (mkEvent 0 10 10); Canvas.PointerMove (mkEvent 0 20 15);
                  Canvas.PointerUp (mkEvent 0 20 15)] Canvas.init)) as Hc
    by (repeat apply canvas_step; apply canvas_init).
  eexists _, _. split; [exact Hc|].
  split; [left|]. split; [left|].
  refine (proj1 (component_strokes_well_formed _ _ _ Hc _ _)); left.
Defined.

(** X12. The only exception of the component is the TypeError of an erase
    outside the tile: in every state, a handler that ends by an exception
    was handling a press or a move whose pointer lies outside
    [0, size) x [0, size), and it leaves the tiles as they were; lifting the
    button or leaving the canvas never raises. *)
Theorem component_exceptions (c : Canvas.state) (e : Canvas.event) (err : js_error) :
  canvas_reachable c →
  (Canvas.handle e c).1 = Throw err →
  err = TypeError
  ∧ Canvas.onScreenTiles (Canvas.handle e c).2 = Canvas.onScreenTiles c
  ∧ ∃ ev, (e = Canvas.PointerDown ev ∨ e = Canvas.PointerMove ev)
          ∧ ¬ ((0 <= offsetX ev ∧ offsetX ev < Tile.size)
               ∧ (0 <= offsetY ev ∧ offsetY ev < Tile.size)).
Proof.
  intros Hc%canvas_reachable_inv.
  assert (∀ ev c0, canvas_inv c0 → (Canvas.erase ev c0).1 = Throw err →
            err = TypeError
            ∧ Canvas.onScreenTiles (Canvas.erase ev c0).2 = Canvas.onScreenTiles c0
            ∧ ¬ ((0 <= offsetX ev ∧ offsetX ev < Tile.size)
                 ∧ (0 <= offsetY ev ∧ offsetY ev < Tile.size))) as Herase.
  { intros ev c0 (_ & _ & _ & _ & tl & Hts & Hx & Hy & Hex & Hey & _).
    destruct (erase_spec_holds c0 ev) as [ | | ? ? Ht | | | ]; simpl; try done.
    intros [= <-]. split; [done|]. split; [done|].
    rewrite Hts, getTile_single in Ht.
    rewrite <- (enclosesVertex_origin tl) by done.
    by destruct (Tile.enclosesVertex _ _ _). }
  destruct e as [ev|ev|ev|ev]; simpl.
  - unfold Canvas.pointerDown.
    destruct (button ev =? 0)%Z; [done|].
    destruct (button ev =? 2)%Z; [|done].
    unfold Canvas.startErase. intros He.
    assert (canvas_inv (Canvas.set_isErasing true c)) as Hc'
      by (revert Hc; by apply canvas_inv_ext).
    destruct (Herase ev (Canvas.set_isErasing true c) Hc' He) as (? & ? & ?).
    split; [done|]. split; [done|]. exists ev. split; [by left | done].
  - unfold Canvas.pointerUp, Canvas.and_then. destruct (_ || _).
    + destruct (canvas_inv_endDraw c Hc) as [_ H2].
      destruct (Canvas.endDraw c) as [o c1]. simpl in *. subst o.
      by destruct (_ || _).
    + by destruct (_ || _).
  - unfold Canvas.pointerMove, Canvas.and_then.
    assert ((Canvas.draw ev c).1 = Normal ()
            ∧ Canvas.onScreenTiles (Canvas.draw ev c).2 = Canvas.onScreenTiles c) as [Hd1 Hd2].
    { unfold Canvas.draw. by destruct (negb _). }
    pose proof (canvas_inv_draw ev c Hc) as Hinv.
    destruct (Canvas.draw ev c) as [o c1]. simpl in *. subst o. intros He.
    destruct (Herase ev c1 Hinv He) as (? & ? & ?).
    split; [done|]. split; [congruence|]. exists ev. split; [by right | done].
  - unfold Canvas.pointerUp, Canvas.and_then. destruct (_ || _).
    + destruct (canvas_inv_endDraw c Hc) as [_ H2].
      destruct (Canvas.endDraw c) as [o c1]. simpl in *. subst o.
      by destruct (_ || _).
    + by destruct (_ || _).
Qed.

Lemma component_exceptions_witness :
  canvas_reachable Canvas.init
  ∧ (Canvas.handle (Canvas.PointerDown (mkEvent 2 2500 100)) Canvas.init).1 = Throw TypeError
  ∧ TypeError = TypeError.
Proof.
  split; [apply canvas_init|]. split; [reflexivity|].
  exact (proj1 (component_exceptions Canvas.init (Canvas.PointerDown (mkEvent 2 2500 100))
                  TypeError canvas_init eq_refl)).
Defined.

(** ** Erase: repetition and frame *)

Lemma erase_suppressed_eq (c : Canvas.state) (ev : PointerEvent) :
  suppressed c ev → Canvas.erase ev c = (Normal (), c).
Proof.
  intros Hs%withinSquare_suppressed. unfold Canvas.erase.
  destruct (negb _); [done|]. cbv zeta. by rewrite Hs.
Qed.

Lemma erase_idle_eq (c : Canvas.state) (ev : PointerEvent) :
  Canvas.isErasing c = false → Canvas.erase ev c = (Normal (), c).
Proof. intros H. unfold Canvas.erase. by rewrite H. Qed.

Lemma erase_empty_eq (c : Canvas.state) (ev : PointerEvent) (k : nat) (tl : Tile.t) :
  Canvas.getTile (Canvas.onScreenTiles c) (Num (offsetX ev)) (Num (offsetY ev)) = Some (k, tl) →
  Tile.isEmpty tl = true →
  Canvas.erase ev c = (Normal (), c).
Proof.
  intros Ht Hem. unfold Canvas.erase.
  destruct (negb _); [done|]. cbv zeta.
  destruct (Canvas.withinSquare _ _ _ _ _); [done|]. by rewrite Ht, Hem.
Qed.

Lemma suppressed_at_last (c : Canvas.state) (ev : PointerEvent) :
  Canvas.lastX c = offsetX ev → Canvas.lastY c = offsetY ev → suppressed c ev.
Proof.
  intros Hx Hy. unfold suppressed, moveThreshold. rewrite Hx, Hy.
  split; apply Qabs_Qle_condition; split; lra.
Qed.

(** X13. Handling the same erase event twice is handling it once: when a
    call of the erase handler ends normally, a second call with the same
    event, in the state the first one left, changes nothing and removes no
    further stroke. *)
Theorem erase_twice (c : Canvas.state) (ev : PointerEvent) :
  (Canvas.erase ev c).1 = Normal () →
  Canvas.erase ev (Canvas.erase ev c).2 = (Normal (), (Canvas.erase ev c).2).
Proof.
  destruct (erase_spec_holds c ev) as [ | | | k tl ? ? Ht Hem | | ]; simpl; try done;
    intros _.
  - by apply erase_idle_eq.
  - by apply erase_suppressed_eq.
  - by eapply erase_empty_eq.
  - by apply erase_suppressed_eq, suppressed_at_last.
  - by apply erase_suppressed_eq, suppressed_at_last.
Qed.

Lemma erase_twice_witness :
  let c := sample_canvas [sample_A; sample_B] 0 0 in
  let ev := mkEvent 2 50 50 in
  (Canvas.erase ev c).1 = Normal ()
  ∧ Canvas.erase ev (Canvas.erase ev c).2 = (Normal (), (Canvas.erase ev c).2).
Proof.
  cbv zeta. split; [reflexivity|].
  exact (erase_twice (sample_canvas [sample_A; sample_B] 0 0) (mkEvent 2 50 50) eq_refl).
Defined.

(** X14. What the erase handler never does: it leaves the drawing flag, the
    erasing flag, the stroke being drawn and the id counter as they were,
    it adds and drops no tile, it moves no tile, and the strokes a tile
    holds afterwards are among those it held before, in the same order. *)
Theorem erase_frame (c : Canvas.state) (ev : PointerEvent) :
  let c' := (Canvas.erase ev c).2 in
  Canvas.isDrawing c' = Canvas.isDrawing c
  ∧ Canvas.isErasing c' = Canvas.isErasing c
  ∧ Canvas.currStroke c' = Canvas.currStroke c
  ∧ Canvas.masterId c' = Canvas.masterId c
  ∧ length (Canvas.onScreenTiles c') = length (Canvas.onScreenTiles c)
  ∧ ∀ k tl, Canvas.onScreenTiles c !! k = Some tl →
      ∃ tl', Canvas.onScreenTiles c' !! k = Some tl'
             ∧ Tile.startX tl' = Tile.startX tl ∧ Tile.startY tl' = Tile.startY tl
             ∧ Tile.endX tl' = Tile.endX tl ∧ Tile.endY tl' = Tile.endY tl
             ∧ Tile.getStrokes tl' `sublist_of` Tile.getStrokes tl.
Proof.
  cbv zeta.
  destruct (erase_spec_holds c ev) as [ | | | | | k0 tl0 i s ? ? Ht ? Hi Hp ?]; simpl;
    try (repeat split; try done; intros k1 tl1 Hk1; exists tl1; by repeat split).
  repeat split; try done; try (by rewrite length_insert).
  intros k tl Hk. apply getTile_Some in Ht as [Hk0 _].
  destruct (decide (k0 = k)) as [->|Hne].
  - rewrite Hk in Hk0. injection Hk0 as <-.
    exists (Tile.removeStroke tl (Stroke.getID s)).
    split; [apply list_lookup_insert_eq; by eapply lookup_lt_Some|].
    destruct (removeStroke_bounds tl (Stroke.getID s)) as (-> & -> & -> & ->).
    repeat split; try done.
    unfold Tile.getStrokes, Tile.removeStroke. destruct (negb _); [done|].
    simpl. apply sublist_filter.
  - exists tl. rewrite list_lookup_insert_ne by done. by repeat split.
Qed.

(** X15. What is redrawn is what remains.  In a state of the component, when
    the tile under the pointer holds [older ++ s :: newer], the stroke s
    passes within eraseRadius of the pointer and no stroke of newer does, an
    erase event that passes the guards ends normally, leaves exactly
    [older ++ newer] in the tile, hands the same list to redraw and records
    the position of the pointer. *)
Theorem component_erase_newest (c : Canvas.state) (ev : PointerEvent) (k : nat)
    (tl : Tile.t) (older newer : list Stroke.t) (s : Stroke.t) :
  canvas_reachable c →
  Canvas.isErasing c = true →
  ¬ suppressed c ev →
  Canvas.getTile (Canvas.onScreenTiles c) (Num (offsetX ev)) (Num (offsetY ev)) = Some (k, tl) →
  Tile.getStrokes tl = older ++ s :: newer →
  passes_within s (offsetX ev) (offsetY ev) →
  (∀ s', s' ∈ newer → ¬ passes_within s' (offsetX ev) (offsetY ev)) →
  ∃ c' tl',
    Canvas.erase ev c = (Normal (), c')
    ∧ Canvas.onScreenTiles c' = <[k := tl']> (Canvas.onScreenTiles c)
    ∧ Tile.getStrokes tl' = older ++ newer
    ∧ Canvas.redrawn c' = Canvas.redrawn c ++ [older ++ newer]
    ∧ Canvas.lastX c' = offsetX ev ∧ Canvas.lastY c' = offsetY ev.
Proof.
  intros Hc He Hns Ht Hl Hp Hnewer.
  pose proof (getTile_Some _ _ _ _ _ Ht) as [Hk _].
  destruct (canvas_reachable_tiles c k tl Hc Hk) as [Hr Hnd].
  eexists _, (Tile.removeStroke tl (Stroke.getID s)).
  split; [by apply (erase_hit_result c ev k tl older newer s)|].
  split; [done|]. split; [|done].
  destruct (removeStroke_strokes tl (Stroke.getID s) (reachable_ids tl Hr)) as [Hf _].
  unfold Tile.getStrokes in *. rewrite Hf.
  rewrite (filter_unique_delete _ (length older) s Hnd).
  - by rewrite Hl, delete_middle.
  - by rewrite Hl, list_lookup_middle.
Qed.

(** ** Gestures *)

Lemma set_currStroke_same (c : Canvas.state) :
  Canvas.set_currStroke (Canvas.currStroke c) c = c.
Proof. by destruct c. Qed.

Lemma run_app (es1 es2 : list Canvas.event) (c : Canvas.state) :
  run (es1 ++ es2) c = run es2 (run es1 c).
Proof. apply foldl_app. Qed.

(** Moves while the primary button is held and nothing is erased: each one
    appends its position. *)
Lemma run_moves (moves : list PointerEvent) :
  ∀ c, Canvas.isDrawing c = true → Canvas.isErasing c = false →
    run (map Canvas.PointerMove moves) c
    = Canvas.set_currStroke (captured (Canvas.currStroke c) (positions moves)) c.
Proof.
  induction moves as [|ev moves IH]; intros c Hd He; simpl.
  - by rewrite set_currStroke_same.
  - unfold Canvas.pointerMove, Canvas.and_then, Canvas.draw. rewrite Hd. simpl.
    rewrite erase_idle_eq by done. simpl. by rewrite IH.
Qed.

Lemma run_reachable (es : list Canvas.event) :
  ∀ c, canvas_reachable c → canvas_reachable (run es c).
Proof.
  induction es as [|e es IH]; intros c Hc; [done|].
  simpl. apply IH. by constructor.
Qed.

Lemma getID_captured (pts : list (jsval * jsval)) :
  ∀ s, Stroke.getID (captured s pts) = Stroke.getID s.
Proof.
  induction pts as [|p pts IH]; intros s; [done|].
  simpl. rewrite IH. apply getID_addToPath.
Qed.

Lemma erase_frame_witness :
  let c := sample_canvas [sample_A; sample_B] 0 0 in
  let ev := mkEvent 2 50 50 in
  Canvas.onScreenTiles c !! 0%nat = Some (sample_tile [sample_A; sample_B])
  ∧ ∃ tl', Canvas.onScreenTiles (Canvas.erase ev c).2 !! 0%nat = Some tl'
           ∧ Tile.getStrokes tl' `sublist_of` [sample_A; sample_B].
Proof.
  cbv zeta. split; [reflexivity|].
  destruct (erase_frame (sample_canvas [sample_A; sample_B] 0 0) (mkEvent 2 50 50))
    as (_ & _ & _ & _ & _ & H).
  destruct (H 0%nat (sample_tile [sample_A; sample_B]) eq_refl)
    as (tl' & H1 & _ & _ & _ & _ & H2).
  exists tl'. split; [exact H1 | exact H2].
Defined.

Lemma component_erase_newest_witness :
  let c := run sample_session Canvas.init in
  let ev := mkEvent 2 50 50 in
  canvas_reachable c
  ∧ Canvas.isErasing c = true
  ∧ ¬ suppressed c ev
  ∧ ∃ c' tl' a,
      Canvas.erase ev c = (Normal (), c')
      ∧ Canvas.onScreenTiles c' = [tl']
      ∧ Tile.getStrokes tl' = [a]
      ∧ Stroke.getID a = 0%nat
      ∧ Canvas.redrawn c' = Canvas.redrawn c ++ [[a]].
Proof.
  cbv zeta.
  assert (canvas_reachable (run sample_session Canvas.init)) as Hc
    by (apply run_reachable, canvas_init).
  assert (¬ suppressed (run sample_session Canvas.init) (mkEvent 2 50 50)) as Hns.
  { intros [H _]. vm_compute in H. apply H. reflexivity. }
  split; [exact Hc|]. split; [reflexivity|]. split; [exact Hns|].
  destruct (component_erase_newest (run sample_session Canvas.init) (mkEvent 2 50 50) 0%nat
              (hd (Tile.new (Num 0) (Num 0)) (Canvas.onScreenTiles (run sample_session Canvas.init)))
              [Stroke.smoothPath sample_A] []
              (Stroke.smoothPath sample_B))
    as (c' & tl' & H1 & H2 & H3 & H4 & _).
  - exact Hc.
  - reflexivity.
  - exact Hns.
  - reflexivity.
  - reflexivity.
  - passes_at 1%Z 52 48.
  - intros s' Hs'. by apply not_elem_of_nil in Hs'.
  - exists c', tl', (Stroke.smoothPath sample_A).
    split; [exact H1|]. split; [exact H2|]. split; [exact H3|].
    split; [reflexivity | exact H4].
Defined.

(** Reduces the projections of a state built by the setters. *)
Ltac canvas_simpl :=
  cbn [Canvas.masterId Canvas.isDrawing Canvas.isErasing Canvas.currStroke
       Canvas.onScreenTiles Canvas.lastX Canvas.lastY Canvas.redrawn
       Canvas.set_isDrawing Canvas.set_isErasing Canvas.set_currStroke
       Canvas.set_masterId Canvas.set_onScreenTiles Canvas.set_last Canvas.redraw
       fst snd].

(** Lifting the primary button over a stroke that is not empty: the stroke
    is smoothed and added to the tile, a new one takes its place. *)
Lemma endDraw_commit (c : Canvas.state) (tl : Tile.t) :
  Canvas.onScreenTiles c = [tl] →
  Stroke.isEmpty (Canvas.currStroke c) = false →
  Canvas.endDraw c =
    (Normal (),
     Canvas.mk (S (Canvas.masterId c)) false (Canvas.isErasing c)
               (Stroke.new [] (Canvas.masterId c)).1
               [Tile.addStroke tl (Stroke.smoothPath (Canvas.currStroke c))]
               (Canvas.lastX c) (Canvas.lastY c) (Canvas.redrawn c)).
Proof.
  intros Hts He. unfold Canvas.endDraw. cbv zeta. canvas_simpl.
  rewrite He. canvas_simpl. rewrite Hts. reflexivity.
Qed.

Lemma endDraw_empty (c : Canvas.state) :
  Stroke.isEmpty (Canvas.currStroke c) = true →
  Canvas.endDraw c = (Normal (), Canvas.set_isDrawing false c).
Proof.
  intros He. unfold Canvas.endDraw. cbv zeta. canvas_simpl. by rewrite He.
Qed.

Lemma pointerUp_primary (ev : PointerEvent) (c : Canvas.state) :
  button ev = 0%Z → Canvas.pointerUp ev c = Canvas.endDraw c.
Proof.
  intros Hb. unfold Canvas.pointerUp, Canvas.and_then, Canvas.skip. rewrite Hb. simpl.
  by destruct (Canvas.endDraw c) as [[[]|e] c1].
Qed.

(** The state after a whole drawing gesture, started where no gesture is in
    progress, the stroke being drawn is empty and the component has its one
    tile. *)
Lemma run_draw_gesture (c : Canvas.state) (tl : Tile.t) (down up : PointerEvent)
    (moves : list PointerEvent) :
  Stroke.path (Canvas.currStroke c) = [] →
  Canvas.onScreenTiles c = [tl] →
  Canvas.isErasing c = false →
  button down = 0%Z →
  button up = 0%Z →
  run (Canvas.PointerDown down :: map Canvas.PointerMove moves ++ [Canvas.PointerUp up]) c
  = Canvas.mk (S (Canvas.masterId c)) false false
      (Stroke.new [] (Canvas.masterId c)).1
      [Tile.addStroke tl
         (Stroke.smoothPath (captured (Canvas.currStroke c) (positions (down :: moves))))]
      (Canvas.lastX c) (Canvas.lastY c) (Canvas.redrawn c).
Proof.
  intros Hp Hts He Hbd Hbu.
  assert (length (Stroke.path (captured (Canvas.currStroke c) (positions (down :: moves))))
          = (2 * (1 + length moves))%nat) as Hlen.
  { rewrite captured_path, Hp, app_nil_l, flat_points_length.
    unfold positions. by rewrite length_map. }
  change (run (Canvas.PointerDown down :: map Canvas.PointerMove moves
               ++ [Canvas.PointerUp up]) c)
    with (run (map Canvas.PointerMove moves ++ [Canvas.PointerUp up])
              (Canvas.pointerDown down c).2).
  unfold Canvas.pointerDown. rewrite Hbd. change (0 =? 0)%Z with true. cbv iota.
  rewrite run_app, run_moves by done.
  change (run [Canvas.PointerUp up] ?c0) with (Canvas.pointerUp up c0).2.
  rewrite pointerUp_primary by done.
  unfold Canvas.startDraw. cbv zeta. canvas_simpl.
  change (captured (Stroke.addToPath (Canvas.currStroke c) (Num (offsetX down))
                      (Num (offsetY down))) (positions moves))
    with (captured (Canvas.currStroke c) (positions (down :: moves))).
  rewrite (endDraw_commit _ tl).
  - canvas_simpl. by rewrite He.
  - done.
  - unfold Stroke.isEmpty. canvas_simpl. by rewrite Hlen.
Qed.

(** X16. A drawing gesture stores one stroke.  In a state of the component
    with no gesture in progress, pressing the primary button at a point,
    moving through any number of points and lifting the button adds to the
    tile exactly one stroke: the smoothed path through the point of the
    press and the points of the moves, in order (the point of the lift is
    not added).  It carries the id of the stroke that was being drawn, has
    one vertex per event and starts at the point of the press; a new empty
    stroke with the next id replaces it, and the erase position and the
    redraw log are untouched. *)
Theorem draw_gesture (c : Canvas.state) (down up : PointerEvent) (moves : list PointerEvent) :
  canvas_reachable c →
  Canvas.isDrawing c = false →
  Canvas.isErasing c = false →
  button down = 0%Z →
  button up = 0%Z →
  let c' := run (Canvas.PointerDown down :: map Canvas.PointerMove moves
                 ++ [Canvas.PointerUp up]) c in
  let s := Stroke.smoothPath (captured (Canvas.currStroke c) (positions (down :: moves))) in
  (∃ tl, Canvas.onScreenTiles c = [tl] ∧ Canvas.onScreenTiles c' = [Tile.addStroke tl s])
  ∧ Stroke.getID s = Stroke.getID (Canvas.currStroke c)
  ∧ length (Stroke.path s) = (2 * (1 + length moves))%nat
  ∧ Stroke.getPathVertex s 0 = Normal (Num (offsetX down), Num (offsetY down))
  ∧ Canvas.currStroke c' = (Stroke.new [] (Canvas.masterId c)).1
  ∧ Canvas.masterId c' = S (Canvas.masterId c)
  ∧ Canvas.isDrawing c' = false
  ∧ Canvas.isErasing c' = false
  ∧ Canvas.lastX c' = Canvas.lastX c ∧ Canvas.lastY c' = Canvas.lastY c
  ∧ Canvas.redrawn c' = Canvas.redrawn c.
Proof.
  intros Hc Hd He Hbd Hbu.
  destruct (canvas_reachable_inv c Hc) as (Hm & Hp & Hb & Hsat & tl & Hts & _).
  specialize (Hp Hd).
  assert (Stroke.path (captured (Canvas.currStroke c) (positions (down :: moves)))
          = flat_map (λ p, [p.1; p.2]) (positions (down :: moves))) as Hpath
    by (by rewrite captured_path, Hp).
  cbv zeta. rewrite (run_draw_gesture c tl) by done. canvas_simpl.
  split; [by exists tl|]. split; [by rewrite getID_smoothPath, getID_captured|].
  split.
  { rewrite length_smoothPath, Hpath, flat_points_length.
    unfold positions. by rewrite length_map. }
  split; [|done].
  rewrite getPathVertex_eq, !smoothPath_head by lia. by rewrite Hpath.
Qed.

Lemma draw_gesture_witness :
  let down := mkEvent 0 10 10 in
  let moves := [mkEvent 0 20 15; mkEvent 0 30 30] in
  let up := mkEvent 0 30 30 in
  let c' := run (Canvas.PointerDown down :: map Canvas.PointerMove moves
                 ++ [Canvas.PointerUp up]) Canvas.init in
  canvas_reachable Canvas.init
  ∧ Canvas.isDrawing Canvas.init = false
  ∧ Canvas.isErasing Canvas.init = false
  ∧ Canvas.masterId c' = 2%nat
  ∧ Canvas.currStroke c' = (Stroke.new [] 1).1.
Proof.
  cbv zeta. split; [apply canvas_init|]. split; [reflexivity|]. split; [reflexivity|].
  destruct (draw_gesture Canvas.init (mkEvent 0 10 10) (mkEvent 0 30 30)
              [mkEvent 0 20 15; mkEvent 0 30 30] canvas_init eq_refl eq_refl eq_refl eq_refl)
    as (_ & _ & _ & _ & H1 & H2 & _).
  split; [exact H2 | exact H1].
Defined.

Lemma set_isDrawing_same (c : Canvas.state) :
  Canvas.isDrawing c = false → Canvas.set_isDrawing false c = c.
Proof. destruct c. simpl. by intros ->. Qed.

Lemma set_isErasing_same (c : Canvas.state) :
  Canvas.isErasing c = false → Canvas.set_isErasing false c = c.
Proof. destruct c. simpl. by intros ->. Qed.

(** X17. Outside a gesture nothing happens: in a state of the component
    where neither button is held, moving the pointer, lifting any button
    and leaving the canvas all end normally and return the state as it
    was. *)
Theorem idle_events_do_nothing (c : Canvas.state) (ev : PointerEvent) :
  canvas_reachable c →
  Canvas.isDrawing c = false →
  Canvas.isErasing c = false →
  Canvas.handle (Canvas.PointerMove ev) c = (Normal (), c)
  ∧ Canvas.handle (Canvas.PointerUp ev) c = (Normal (), c)
  ∧ Canvas.handle (Canvas.PointerLeave ev) c = (Normal (), c).
Proof.
  intros Hc Hd He.
  destruct (canvas_reachable_inv c Hc) as (_ & Hp & _).
  assert (Canvas.endDraw c = (Normal (), c)) as Hend.
  { rewrite endDraw_empty by (by apply isEmpty_path, Hp).
    by rewrite set_isDrawing_same. }
  assert (Canvas.pointerUp ev c = (Normal (), c)) as Hup.
  { unfold Canvas.pointerUp, Canvas.and_then, Canvas.skip, Canvas.endErase.
    destruct (_ || _); rewrite ?Hend; destruct (_ || _);
      by rewrite ?set_isErasing_same. }
  split; [|by split].
  simpl. unfold Canvas.pointerMove, Canvas.and_then, Canvas.draw.
  rewrite Hd. simpl. by apply erase_idle_eq.
Qed.

Lemma idle_events_do_nothing_witness :
  canvas_reachable Canvas.init
  ∧ Canvas.handle (Canvas.PointerMove (mkEvent (-1) 40 40)) Canvas.init
    = (Normal (), Canvas.init).
Proof.
  split; [apply canvas_init|].
  exact (proj1 (idle_events_do_nothing Canvas.init (mkEvent (-1) 40 40)
                  canvas_init eq_refl eq_refl)).
Defined.

(** ** redraw *)

Lemma lt_quarter (s : Stroke.t) (i : Z) :
  Qlt_bool (inject_Z i) (Stroke.getLength s / 2) = true
  ↔ (i * 4 < Z.of_nat (length (Stroke.path s)))%Z.
Proof.
  rewrite Qlt_bool_iff. unfold Stroke.getLength, Qlt, Qdiv, Qmult, Qinv, inject_Z.
  simpl. lia.
Qed.

Lemma curve_at_path (s : Stroke.t) (k : nat) :
  curve_at s k =
  QuadraticCurveTo (aget (Stroke.path s) (Z.of_nat k * 4))
                   (aget (Stroke.path s) (Z.of_nat k * 4 + 1))
                   (aget (Stroke.path s) (Z.of_nat k * 4 + 2))
                   (aget (Stroke.path s) (Z.of_nat k * 4 + 3)).
Proof.
  unfold curve_at, vertex_of. rewrite !getPathVertex_eq. simpl.
  f_equal; f_equal; lia.
Qed.

(** The loop that draws the curves, from turn [i]: one curve for each turn
    up to the last [m] with 4m below the length of the path. *)
Lemma curves_loop_spec (s : Stroke.t) (m r : nat) :
  (length (Stroke.path s) - 1 = 4 * m + r)%nat → (r < 4)%nat →
  ∀ (fuel i : nat), (1 ≤ i)%nat → (m + 1 ≤ fuel + i)%nat →
    curves_loop fuel (Z.of_nat i) s = map (curve_at s) (seq i (m + 1 - i)).
Proof.
  intros Hm Hr. induction fuel as [|fuel IH]; intros i Hi Hfuel; simpl.
  - by replace (m + 1 - i)%nat with 0%nat by lia.
  - destruct (Qlt_bool _ _) eqn:Hc.
    + apply lt_quarter in Hc.
      replace (m + 1 - i)%nat with (S (m + 1 - S i)) by lia. simpl.
      rewrite curve_at_path. f_equal.
      replace (Z.of_nat i + 1)%Z with (Z.of_nat (S i)) by lia.
      apply IH; lia.
    + rewrite <- not_true_iff_false, lt_quarter in Hc.
      by replace (m + 1 - i)%nat with 0%nat by lia.
Qed.

(** X18. What redraw draws of a stroke: it moves to the start, draws the
    start dot, and then one curve per turn k = 1, 2, ..., as long as 4k is
    below the number of entries of the path; the curve of turn k has vertex
    2k as control point and vertex 2k+1 as end point.  Vertex 1 is thus
    never used, and for a stroke of an odd number n >= 3 of points the last
    curve has vertex n-1 as control point and (undefined, undefined) as end
    point. *)
Theorem redraw_stroke_calls :
  (∀ s : Stroke.t,
      redraw_addStroke s =
        MoveTo (Stroke.getStartX s) (Stroke.getStartY s)
        :: Arc (Stroke.getStartX s) (Stroke.getStartY s) (Num (strokeWidth / 10))
        :: map (curve_at s) (seq 1 ((length (Stroke.path s) - 1) / 4)))
  ∧ (∀ (s : Stroke.t) (h : nat),
      length (Stroke.path s) = (2 * (2 * h + 1))%nat → (1 ≤ h)%nat →
      last (redraw_addStroke s)
      = Some (QuadraticCurveTo (vertex_of s (2 * Z.of_nat h)).1
                               (vertex_of s (2 * Z.of_nat h)).2 Undef Undef)).
Proof.
  assert (∀ s : Stroke.t,
      redraw_addStroke s =
        MoveTo (Stroke.getStartX s) (Stroke.getStartY s)
        :: Arc (Stroke.getStartX s) (Stroke.getStartY s) (Num (strokeWidth / 10))
        :: map (curve_at s) (seq 1 ((length (Stroke.path s) - 1) / 4))) as Hcalls.
  { intros s. unfold redraw_addStroke. cbn [app]. do 2 f_equal.
    pose proof (Nat.div_mod_eq (length (Stroke.path s) - 1) 4) as Hdm.
    pose proof (Nat.mod_upper_bound (length (Stroke.path s) - 1) 4) as Hub.
    rewrite (curves_loop_spec s _ _ Hdm (Hub ltac:(lia)) _ 1%nat) by lia.
    f_equal. f_equal. lia. }
  split; [exact Hcalls|].
  intros s h Hlen Hh. rewrite Hcalls, Hlen.
  replace ((2 * (2 * h + 1) - 1) / 4)%nat with (S (h - 1)).
  - rewrite seq_S, map_app. simpl.
    rewrite !last_cons, last_snoc.
    replace (S (h - 1)) with h by lia.
    unfold curve_at. do 2 f_equal;
      unfold vertex_of; rewrite !getPathVertex_eq; cbn [fst snd];
      by rewrite ?aget_ge by lia.
  - apply (Nat.div_unique _ 4 _ 1); lia.
Qed.

Lemma redraw_stroke_calls_witness :
  let s := captured (Stroke.new [] 0).1 [(Num 1, Num 2); (Num 3, Num 4); (Num 5, Num 6)] in
  length (Stroke.path s) = (2 * (2 * 1 + 1))%nat
  ∧ last (redraw_addStroke s) = Some (QuadraticCurveTo (Num 5) (Num 6) Undef Undef).
Proof.
  cbv zeta. split; [reflexivity|].
  exact (proj2 redraw_stroke_calls
           (captured (Stroke.new [] 0).1 [(Num 1, Num 2); (Num 3, Num 4); (Num 5, Num 6)])
           1%nat eq_refl (le_n 1)).
Defined.

(** ** Appending, straight lines, and undoing a stroke *)

(** X19. Appending a point to a stroke of a drawing session adds one vertex
    at the end and keeps the others: the new last vertex is the point, every
    earlier vertex, the id and the number of earlier entries are unchanged,
    and the stroke is not empty afterwards. *)
Theorem addToPath_appends (s : Stroke.t) (n : nat) (x y : jsval) :
  built s →
  length (Stroke.path s) = (2 * n)%nat →
  let s' := Stroke.addToPath s x y in
  Stroke.getPathVertex s' (Z.of_nat n) = Normal (x, y)
  ∧ (∀ j : Z, (j < Z.of_nat n)%Z → Stroke.getPathVertex s' j = Stroke.getPathVertex s j)
  ∧ length (Stroke.path s') = (2 * (n + 1))%nat
  ∧ Stroke.getID s' = Stroke.getID s
  ∧ Stroke.isEmpty s' = false.
Proof.
  intros Hb Hlen. cbv zeta. rewrite !getPathVertex_eq, length_addToPath.
  split; [|split; [|split; [|split]]].
  - replace (Z.of_nat n * 2)%Z with (Z.of_nat (length (Stroke.path s) + 0)) by lia.
    replace (Z.of_nat (length (Stroke.path s) + 0) + 1)%Z
      with (Z.of_nat (length (Stroke.path s) + 1)) by lia.
    rewrite (aget_lookup _ _ x), (aget_lookup _ _ y); [done | |].
    + rewrite lookup_app_r by lia.
      by replace (length (Stroke.path s) + 1 - length (Stroke.path s))%nat with 1%nat by lia.
    + rewrite lookup_app_r by lia.
      by replace (length (Stroke.path s) + 0 - length (Stroke.path s))%nat with 0%nat by lia.
  - intros j Hj. rewrite !getPathVertex_eq, length_addToPath.
    by rewrite !aget_app_l by lia.
  - rewrite length_app, Hlen. simpl. lia.
  - apply getID_addToPath.
  - unfold Stroke.isEmpty. rewrite length_addToPath, length_app. simpl.
    apply Nat.eqb_neq. lia.
Qed.

Lemma addToPath_appends_witness :
  let s := captured (Stroke.new [] 0).1 [(Num 1, Num 2)] in
  built s
  ∧ length (Stroke.path s) = (2 * 1)%nat
  ∧ Stroke.getPathVertex (Stroke.addToPath s (Num 3) (Num 4)) 1 = Normal (Num 3, Num 4).
Proof.
  cbv zeta.
  assert (built (captured (Stroke.new [] 0).1 [(Num 1, Num 2)])) as Hb
    by (repeat constructor).
  split; [exact Hb|]. split; [reflexivity|].
  exact (proj1 (addToPath_appends _ 1%nat (Num 3) (Num 4) Hb eq_refl)).
Defined.







(** X22. Drawing a stroke and erasing it at its first point restores the
    tiles.  From a state of the component with no gesture in progress, after
    a drawing gesture that starts at a point inside the tile and farther
    than moveThreshold from the last erase position, pressing the secondary
    button at that point removes the stroke just drawn: the tiles are again
    what they were before the gesture, and redraw is called once, with the
    strokes the tile held before. *)
Theorem draw_then_erase (c : Canvas.state) (down up press : PointerEvent)
    (moves : list PointerEvent) (tl : Tile.t) :
  canvas_reachable c →
  Canvas.isDrawing c = false →
  Canvas.isErasing c = false →
  Canvas.onScreenTiles c = [tl] →
  button down = 0%Z → button up = 0%Z → button press = 2%Z →
  offsetX press = offsetX down → offsetY press = offsetY down →
  (0 <= offsetX down ∧ offsetX down < Tile.size)
  ∧ (0 <= offsetY down ∧ offsetY down < Tile.size) →
  ¬ suppressed c press →
  let c' := run (Canvas.PointerDown down :: map Canvas.PointerMove moves
                 ++ [Canvas.PointerUp up; Canvas.PointerDown press]) c in
  Canvas.onScreenTiles c' = Canvas.onScreenTiles c
  ∧ Canvas.redrawn c' = Canvas.redrawn c ++ [Tile.getStrokes tl]
  ∧ Canvas.lastX c' = offsetX press ∧ Canvas.lastY c' = offsetY press
  ∧ Canvas.isErasing c' = true.
Proof.
  intros Hc Hd He Hts Hbd Hbu Hbp Hpx Hpy Hin Hns.
  destruct (canvas_reachable_inv c Hc) as (Hm & Hp & Hb & Hsat & tl0 & Hts0 & Hx & Hy & Hex & Hey & _).
  rewrite Hts in Hts0. injection Hts0 as <-. specialize (Hp Hd).
  destruct (canvas_reachable_ok c Hc) as [_ Hok]. rewrite Hts in Hok.
  apply Forall_singleton in Hok as (Hr & Hnd & Hlt).
  set (s := Stroke.smoothPath (captured (Canvas.currStroke c) (positions (down :: moves)))).
  assert (Stroke.getID s = Stroke.getID (Canvas.currStroke c)) as Hid
    by (unfold s; by rewrite getID_smoothPath, getID_captured).
  assert (Stroke.path (captured (Canvas.currStroke c) (positions (down :: moves)))
          = flat_map (λ p, [p.1; p.2]) (positions (down :: moves))) as Hpath
    by (by rewrite captured_path, Hp).
  assert (passes_within s (offsetX press) (offsetY press)) as Hpass.
  { exists 0%Z, (offsetX down), (offsetY down). split; [done|]. split.
    - apply Qlt_bool_iff, lt_getLength. unfold s.
      rewrite length_smoothPath, Hpath, flat_points_length. simpl. lia.
    - split.
      + unfold s. rewrite getPathVertex_eq, !smoothPath_head by lia. by rewrite Hpath.
      + rewrite Hpx, Hpy. unfold eraseRadius.
        split; apply Qabs_Qle_condition; split; lra. }
  cbv zeta.
  replace (Canvas.PointerDown down :: map Canvas.PointerMove moves
           ++ [Canvas.PointerUp up; Canvas.PointerDown press])
    with ((Canvas.PointerDown down :: map Canvas.PointerMove moves ++ [Canvas.PointerUp up])
          ++ [Canvas.PointerDown press])
    by (simpl; by rewrite <- app_assoc).
  rewrite run_app, (run_draw_gesture c tl) by done. fold s.
  change (run [Canvas.PointerDown press] ?c0) with (Canvas.pointerDown press c0).2.
  unfold Canvas.pointerDown, Canvas.startErase. rewrite Hbp.
  change (2 =? 0)%Z with false. change (2 =? 2)%Z with true. cbv iota beta.
  rewrite (erase_hit_result _ press 0%nat (Tile.addStroke tl s) (Tile.getStrokes tl) [] s).
  - canvas_simpl. cbn [insert list_insert].
    rewrite removeStroke_addStroke_eq, Hts, app_nil_r; [done | done |].
    rewrite (reachable_ids tl Hr). intros [s' [Heq Hs']]%list_elem_of_fmap.
    eapply Forall_forall in Hlt; [|exact Hs']. simpl in Hlt. lia.
  - done.
  - intros [H1 H2]. apply Hns. split; [exact H1 | exact H2].
  - canvas_simpl. rewrite getTile_single.
    assert (Tile.enclosesVertex (Tile.addStroke tl s) (Num (offsetX press)) (Num (offsetY press))
            = true) as ->; [|done].
    rewrite Hpx, Hpy. by apply (enclosesVertex_origin (Tile.addStroke tl s)).
  - by constructor.
  - done.
  - done.
  - intros s' Hs'. by apply not_elem_of_nil in Hs'.
Qed.

Lemma draw_then_erase_witness :
  let down := mkEvent 0 10 10 in
  let up := mkEvent 0 30 30 in
  let press := mkEvent 2 10 10 in
  let moves := [mkEvent 0 20 15; mkEvent 0 30 30] in
  let c' := run (Canvas.PointerDown down :: map Canvas.PointerMove moves
                 ++ [Canvas.PointerUp up; Canvas.PointerDown press]) Canvas.init in
  canvas_reachable Canvas.init
  ∧ ¬ suppressed Canvas.init press
  ∧ Canvas.onScreenTiles c' = Canvas.onScreenTiles Canvas.init.
Proof.
  cbv zeta.
  assert (¬ suppressed Canvas.init (mkEvent 2 10 10)) as Hns.
  { intros [H _]. vm_compute in H. apply H. reflexivity. }
  split; [apply canvas_init|]. split; [exact Hns|].
  refine (proj1 (draw_then_erase Canvas.init (mkEvent 0 10 10) (mkEvent 0 30 30)
                   (mkEvent 2 10 10) [mkEvent 0 20 15; mkEvent 0 30 30]
                   (Tile.new (Num 0) (Num 0))
                   canvas_init eq_refl eq_refl eq_refl eq_refl eq_refl eq_refl
                   eq_refl eq_refl _ Hns)).
  split; split; vm_compute; (reflexivity || discriminate).
Defined.
